(** * Cache overlay store, root multi-store and bank client helper

    A shallow embedding of
      - store/cache/store.go      (the cache-wrapping KVStore),
      - store/rootmulti/store.go  (the commit multi-store),
      - x/bank/client/util.go     (CreateMsg),
    followed by the properties established about them.

    Conventions.  A Go [[]byte] is an [option string]: [None] is the nil
    slice and [Some s] a non-nil slice holding the bytes of [s] (so [Some]
    of the empty string is the empty, non-nil slice).  A Go [string] is a
    [string].  A Go [map] is a [gmap]; where the source ranges over a map,
    the order of the traversal is an explicit argument of the model.  An
    [int64] is a [Z], additions being wrapped.  A Go function that may
    panic returns an [outcome].  The mutexes, the tracer and the iterators
    (whose merge iterator lives in another file) are left out. *)

From Stdlib Require Import ZArith String Ascii List Lia DecimalString.
From stdpp Require Import base option list sorting gmap strings.

Open Scope Z_scope.

(** ** Go prelude *)

Module Go.

(** [[]byte]; [None] is [nil]. *)
Definition bytes : Type := option string.

(** [string(b)] for [b []byte]: both the nil and the empty slice give the
    empty string. *)
Definition string_of_bytes (b : bytes) : string := default EmptyString b.

(** [[]byte(s)] for [s string]: never nil. *)
Definition bytes_of_string (s : string) : bytes := Some s.

(** The result of running a Go function: it returns, or it panics. *)
Inductive outcome (A : Type) : Type :=
| Done (a : A)
| Panic (msg : string).
Arguments Done {A} a.
Arguments Panic {A} msg.

#[global] Instance outcome_ret : MRet outcome := fun A a => Done a.
#[global] Instance outcome_bind : MBind outcome := fun A B f m =>
  match m with
  | Done a => f a
  | Panic msg => Panic msg
  end.

#[global] Instance outcome_fmap : FMap outcome := fun A B f m =>
  match m with
  | Done a => Done (f a)
  | Panic msg => Panic msg
  end.

Definition panics {A} (m : outcome A) : Prop :=
  match m with
  | Done _ => False
  | Panic _ => True
  end.

(** [int64] arithmetic: two's complement wrap-around. *)
Definition int64_min : Z := - 2 ^ 63.
Definition int64_max : Z := 2 ^ 63 - 1.
Definition int64_wrap (z : Z) : Z := (z + 2 ^ 63) mod 2 ^ 64 - 2 ^ 63.
Definition int64_add (a b : Z) : Z := int64_wrap (a + b).

(** [fmt.Sprintf("%d", z)]. *)
Definition format_int (z : Z) : string := NilZero.string_of_int (Z.to_int z).

(** [strings.HasPrefix(s, "/")]. *)
Definition hasSlashPrefix (s : string) : bool :=
  match s with
  | String c _ => if decide (c = "/"%char) then true else false
  | EmptyString => false
  end.

(** [strings.SplitN(s, "/", 2)]: the text before the first slash and, when
    there is a slash, the text after it. *)
Fixpoint splitSlash2 (s : string) : string * option string :=
  match s with
  | EmptyString => (EmptyString, None)
  | String c rest =>
      if decide (c = "/"%char) then (EmptyString, Some rest)
      else let '(hd, tl) := splitSlash2 rest in (String c hd, tl)
  end.

(** No byte of [s] is a slash. *)
Fixpoint noSlash (s : string) : bool :=
  match s with
  | EmptyString => true
  | String c rest => if decide (c = "/"%char) then false else noSlash rest
  end.

(** [strings.Contains(s, sub)]. *)
Definition contains (s sub : string) : bool :=
  if String.index 0 sub s is Some _ then true else false.

(** The value returned, [d] standing for a panic. *)
Definition returned {A} (d : A) (m : outcome A) : A :=
  match m with
  | Done a => a
  | Panic _ => d
  end.

End Go.
Import Go.

(** ** store/cache/store.go *)

Module Cache.

(** The part of [sdk.KVStore] the overlay calls on its parent.  Every
    method may change the receiver ([Get] on a cache overlay installs a
    snapshot) and may panic. *)
Class KVStore (P : Type) : Type := {
  kvGet : bytes → P → outcome (bytes * P);
  kvSet : bytes → bytes → P → outcome P;
  kvDelete : bytes → P → outcome P;
}.

(** If value is nil but deleted is false, it means the parent doesn't have
    the key. *)
Record cValue : Type := mkCValue {
  value : bytes;
  deleted : bool;
  dirty : bool;
}.

(** The zero [cValue], what [ci.cache[key]] yields for a missing key. *)
Definition zeroCValue : cValue := mkCValue None false false.

Record Store (P : Type) : Type := mkStore {
  cache : gmap string cValue;
  parent : P;
}.
Arguments mkStore {P} cache parent.
Arguments cache {P} s.
Arguments parent {P} s.

Section Overlay.
Context {P : Type} `{!KVStore P}.

Definition NewStore (parent : P) : Store P := mkStore ∅ parent.

Definition assertValidKey (key : bytes) : outcome unit :=
  match key with
  | None => Panic "key is nil"
  | Some _ => Done tt
  end.

(** Only entrypoint to mutate [ci.cache]. *)
Definition setCacheValue (key value : bytes) (deleted dirty : bool)
    (ci : Store P) : Store P :=
  mkStore (<[string_of_bytes key := mkCValue value deleted dirty]> (cache ci))
          (parent ci).

Definition Get (key : bytes) (ci : Store P) : outcome (bytes * Store P) :=
  _ ← assertValidKey key;
  match cache ci !! string_of_bytes key with
  | None =>
      '(value, parent') ← kvGet key (parent ci);
      Done (value, setCacheValue key value false false (mkStore (cache ci) parent'))
  | Some cacheValue => Done (value cacheValue, ci)
  end.

Definition Set_ (key value : bytes) (ci : Store P) : outcome (Store P) :=
  _ ← assertValidKey key;
  Done (setCacheValue key value false true ci).

Definition Has (key : bytes) (ci : Store P) : outcome (bool * Store P) :=
  '(value, ci') ← Get key ci;
  Done (bool_decide (value ≠ None), ci').

Definition Delete (key : bytes) (ci : Store P) : outcome (Store P) :=
  _ ← assertValidKey key;
  Done (setCacheValue key None true true ci).

(** The first loop of [Write]: the keys of the dirty entries, in the order
    in which the range over the map visits them. *)
Definition dirtyKeys (visited : list (string * cValue)) : list string :=
  (filter (λ kv, dirty kv.2 = true) visited).*1.

(** [sort.Strings]: ascending byte-wise order. *)
Definition sortStrings (keys : list string) : list string :=
  merge_sort String.le keys.

(** The body of the second loop of [Write] for one key. *)
Definition flushKey (c : gmap string cValue) (key : string) (p : P) : outcome P :=
  let cacheValue := default zeroCValue (c !! key) in
  if deleted cacheValue then kvDelete (bytes_of_string key) p
  else match value cacheValue with
       | None => Done p
       | Some v => kvSet (bytes_of_string key) (Some v) p
       end.

Fixpoint flushKeys (c : gmap string cValue) (keys : list string) (p : P)
    : outcome P :=
  match keys with
  | [] => Done p
  | key :: keys' => p' ← flushKey c key p; flushKeys c keys' p'
  end.

(** [Write], the range over [ci.cache] visiting the entries as [visited]. *)
Definition WriteVisiting (visited : list (string * cValue)) (ci : Store P)
    : outcome (Store P) :=
  let keys := sortStrings (dirtyKeys visited) in
  p' ← flushKeys (cache ci) keys (parent ci);
  Done (mkStore ∅ p').

Definition Write (ci : Store P) : outcome (Store P) :=
  WriteVisiting (map_to_list (cache ci)) ci.

(** [CacheWrap]: a further overlay whose parent is this one. *)
#[export] Instance Store_KVStore : KVStore (Store P) := {
  kvGet := Get;
  kvSet := Set_;
  kvDelete := Delete;
}.

Definition CacheWrap (ci : Store P) : Store (Store P) := mkStore ∅ ci.

End Overlay.

(** A call made on the parent by [Write]. *)
Inductive parentCall : Type :=
| CallDelete (key : string)
| CallSet (key : string) (v : string).

Definition callKey (c : parentCall) : string :=
  match c with
  | CallDelete key => key
  | CallSet key _ => key
  end.

(** The call [Write] makes on the parent for the entry [cv] under [key]:
    a [Delete] for a tombstone, a [Set] for a value, none for a nil value. *)
Definition callOf (key : string) (cv : cValue) : option parentCall :=
  if deleted cv then Some (CallDelete key)
  else match value cv with
       | None => None
       | Some v => Some (CallSet key v)
       end.

Section ParentCalls.
Context {P : Type} `{!KVStore P}.

Definition runCall (c : parentCall) (p : P) : outcome P :=
  match c with
  | CallDelete key => kvDelete (bytes_of_string key) p
  | CallSet key v => kvSet (bytes_of_string key) (Some v) p
  end.

Fixpoint runCalls (cs : list parentCall) (p : P) : outcome P :=
  match cs with
  | [] => Done p
  | c :: cs' => p' ← runCall c p; runCalls cs' p'
  end.

End ParentCalls.

(** An in-memory parent: a plain map from keys to values, which never
    panics.  It stands for a leaf store in the examples. *)
Definition memStore : Type := gmap string string.

#[export] Instance memStore_KVStore : KVStore memStore := {
  kvGet key m := Done (m !! string_of_bytes key, m);
  kvSet key v m := Done (<[string_of_bytes key := string_of_bytes v]> m);
  kvDelete key m := Done (delete (string_of_bytes key) m);
}.

(** [cmn.KVPair]. *)
Record KVPair : Type := mkKVPair {
  Key : bytes;
  Value : bytes;
}.

(** The order [dirtyItems] sorts by: [bytes.Compare] of the keys, upwards
    when ascending and downwards otherwise.  The keys of the items being
    distinct, sorting by the non-strict order gives the slice that
    [sort.Slice] gives with the strict one. *)
Definition itemBefore (ascending : bool) (a b : KVPair) : Prop :=
  if ascending
  then String.le (string_of_bytes (Key a)) (string_of_bytes (Key b))
  else String.le (string_of_bytes (Key b)) (string_of_bytes (Key a)).

#[export] Instance itemBefore_dec (ascending : bool) :
  RelDecision (itemBefore ascending).
Proof. intros a b. unfold itemBefore. destruct ascending; apply _. Defined.

(** [dirtyItems], the range over [ci.cache] visiting the entries as
    [visited]. *)
Definition dirtyItemsVisiting (visited : list (string * cValue))
    (ascending : bool) : list KVPair :=
  merge_sort (itemBefore ascending)
    ((λ kv, mkKVPair (bytes_of_string kv.1) (value kv.2))
       <$> filter (λ kv, dirty kv.2 = true) visited).

Definition dirtyItems {P : Type} (ci : Store P) (ascending : bool) : list KVPair :=
  dirtyItemsVisiting (map_to_list (cache ci)) ascending.

(** *** Vocabulary of the properties *)

(** A call on the overlay with a non-nil key (and a non-nil value). *)
Inductive overlayCall : Type :=
| OGet (key : string)
| OHas (key : string)
| OSet (key v : string)
| ODelete (key : string).

(** What a call does to the contents of a store. *)
Definition applyCall (c : overlayCall) (m : gmap string string)
    : gmap string string :=
  match c with
  | OSet key v => <[key := v]> m
  | ODelete key => delete key m
  | OGet _ | OHas _ => m
  end.

(** What [Write] of a child overlay leaves in its parent overlay under a
    key whose child entry is the dirty [cv], [old] being the parent
    overlay's entry before. *)
Definition flushedEntry (cv : cValue) (old : option cValue) : option cValue :=
  if deleted cv then Some (mkCValue None true true)
  else match value cv with
       | Some v => Some (mkCValue (Some v) false true)
       | None => old
       end.

Section Contract.
Context {P : Type} `{!KVStore P}.

Definition runOverlayCall (c : overlayCall) (ci : Store P) : outcome (Store P) :=
  match c with
  | OGet key => snd <$> Get (Some key) ci
  | OHas key => snd <$> Has (Some key) ci
  | OSet key v => Set_ (Some key) (Some v) ci
  | ODelete key => Delete (Some key) ci
  end.

Fixpoint runOverlayCalls (cs : list overlayCall) (ci : Store P)
    : outcome (Store P) :=
  match cs with
  | [] => Done ci
  | c :: cs' => ci' ← runOverlayCall c ci; runOverlayCalls cs' ci'
  end.

(** The contract of a parent store: on the states [valid] holds of, the
    store behaves as the map [contents] of its keys to its values. *)
Record KVLaws (valid : P → Prop) (contents : P → gmap string string) : Prop := {
  law_get key p :
    valid p →
    ∃ p', kvGet (Some key) p = Done (contents p !! key, p')
          ∧ valid p' ∧ contents p' = contents p;
  law_set key v p :
    valid p →
    ∃ p', kvSet (Some key) (Some v) p = Done p'
          ∧ valid p' ∧ contents p' = <[key := v]> (contents p);
  law_delete key p :
    valid p →
    ∃ p', kvDelete (Some key) p = Done p'
          ∧ valid p' ∧ contents p' = delete key (contents p);
}.

(** What the overlay shows: the value of the cached entry where there is
    one, the parent's value elsewhere. *)
Definition view (contents : P → gmap string string) (ci : Store P)
    : gmap string string :=
  merge (λ c p, match c with
                | Some cv => value cv
                | None => p
                end) (cache ci) (contents (parent ci)).

(** The overlay is in step with its parent: a clean entry is a snapshot of
    the parent's value, a tombstone is dirty and holds no value, and a
    pending write holds one. *)
Definition coherent (valid : P → Prop) (contents : P → gmap string string)
    (ci : Store P) : Prop :=
  valid (parent ci)
  ∧ ∀ key cv, cache ci !! key = Some cv →
      (dirty cv = false →
         deleted cv = false ∧ value cv = contents (parent ci) !! key)
      ∧ (deleted cv = true → dirty cv = true ∧ value cv = None)
      ∧ (dirty cv = true → deleted cv = false → is_Some (value cv)).

End Contract.

End Cache.

(** ** store/rootmulti/store.go *)

Module RootMulti.

(** A Go [error] is represented by its message; a function returning
    [(T, error)] returns a [result]. *)
Inductive result (A : Type) : Type :=
| Ok (a : A)
| Err (msg : string).
Arguments Ok {A} a.
Arguments Err {A} msg.

(** [sdk.CommitID]. *)
Record CommitID : Type := mkCommitID {
  Version : Z;
  Hash : bytes;
}.

#[export] Instance CommitID_eq_dec : EqDecision CommitID.
Proof. solve_decision. Defined.

Definition zeroCommitID : CommitID := mkCommitID 0 None.

(** Modelled from the spec: [sdk.CommitID.IsZero] is declared outside
    store/rootmulti/store.go; "a commit id is zero iff version==0 and hash
    is empty". *)
Definition IsZero (cid : CommitID) : bool :=
  bool_decide (Version cid = 0)
  && bool_decide (string_of_bytes (Hash cid) = EmptyString).

(** [sdk.StoreKey]: a handle compared by identity, carrying a name. *)
Record StoreKey : Type := mkStoreKey {
  keyId : positive;
  keyName : string;
}.

#[export] Instance StoreKey_eq_dec : EqDecision StoreKey.
Proof. solve_decision. Defined.

#[export] Instance StoreKey_countable : Countable StoreKey.
Proof.
  refine (inj_countable' (λ k, (keyId k, keyName k))
                         (λ p, mkStoreKey p.1 p.2) _).
  by intros [].
Defined.

Record storeCore : Type := mkStoreCore {
  coreCommitID : CommitID;
}.

#[export] Instance storeCore_eq_dec : EqDecision storeCore.
Proof. solve_decision. Defined.

(** [storeInfo] contains the name and core reference for an underlying
    store.  It is the leaf of the top level simple merkle tree. *)
Record storeInfo : Type := mkStoreInfo {
  Name : string;
  Core : storeCore;
}.

#[export] Instance storeInfo_eq_dec : EqDecision storeInfo.
Proof. solve_decision. Defined.

Record commitInfo : Type := mkCommitInfo {
  ciVersion : Z;
  StoreInfos : list storeInfo;
}.

#[export] Instance commitInfo_eq_dec : EqDecision commitInfo.
Proof. solve_decision. Defined.

(** [dbm.DB], seen through the keys the root itself reads and writes. *)
Abbreviation DB := (gmap string string).

(** [dbm.NewPrefixDB(db, prefix)]. *)
Record prefixDB : Type := mkPrefixDB {
  pdb : DB;
  pprefix : string;
}.

(** [dbm.Batch]: the pending [Set]s, oldest first. *)
Definition Batch : Type := list (string * string).
Definition batchSet (key v : string) (b : Batch) : Batch := b ++ [(key, v)].
Definition batchWrite (b : Batch) (db : DB) : DB :=
  fold_left (λ d kv, <[kv.1 := kv.2]> d) b db.

(** [sdk.PruningStrategy], a small unsigned integer. *)
Definition PruningStrategy : Type := N.

(** [sdk.Error], by constructor and message. *)
Inductive sdkError : Type :=
| ErrUnknownRequest (msg : string)
| ErrInternal (msg : string).

Record RequestQuery : Type := mkRequestQuery {
  Data : bytes;
  Path : string;
  Height : Z;
  Prove : bool;
}.

Record ResponseQuery : Type := mkResponseQuery {
  resCode : N;
  resLog : string;
  resValue : bytes;
  resProof : bytes;
  resHeight : Z;
}.

Definition withPath (req : RequestQuery) (path : string) : RequestQuery :=
  mkRequestQuery (Data req) path (Height req) (Prove req).

Definition withProof (res : ResponseQuery) (proof : bytes) : ResponseQuery :=
  mkResponseQuery (resCode res) (resLog res) (resValue res) proof (resHeight res).

(** The methods of [sdk.CommitKVStore] the root calls on a sub-store of
    type [S], [T] being the type tags ([reflect.Type]) the root
    instantiates sub-stores from.  [storeQueryable st] is the type
    assertion [store.(sdk.Queryable)]: [None] when it fails, the store's
    [Query] method otherwise. *)
Class CommitKVStore (T S : Type) : Type := {
  zeroStore : T → S;
  storeCommit : S → CommitID * S;
  storeSetPruning : PruningStrategy → S → S;
  storeLoadKVStoreVersion : prefixDB → CommitID → S → option string * S;
  storeQueryable : S → option (RequestQuery → ResponseQuery);
}.

(** The external collaborators: the binary encoder [cdc], [tmhash],
    [merkle.SimpleHashFromMap] over the leaf hashes, the [%v] rendering of
    a store key, and the helpers of the query path declared outside this
    file. *)
Class Externals : Type := {
  marshalStoreCore : storeCore → string;
  marshalCommitInfo : commitInfo → result string;
  unmarshalCommitInfo : string → result commitInfo;
  marshalInt64 : Z → string;
  unmarshalInt64 : string → result Z;
  tmhashSum : string → string;
  simpleHashFromMap : gmap string bytes → bytes;
  showStoreKey : StoreKey → string;
  RequireProof : string → bool;
  buildMultiStoreProof : bytes → string → list storeInfo → bytes;
  QueryResult : sdkError → ResponseQuery;
}.

Definition latestVersionKey : string := "s/latest".
(** [fmt.Sprintf(commitInfoKeyFmt, ver)] with [commitInfoKeyFmt = "s/%d"]. *)
Definition commitInfoKey (ver : Z) : string := "s/" +:+ format_int ver.

Section Root.
Context {T S : Type} `{!CommitKVStore T S} `{!Externals}.

Record storeParams : Type := mkStoreParams {
  spKey : StoreKey;
  spDb : option DB;
  spTyp : option T;
}.

Record Store : Type := mkRootStore {
  db : DB;
  lastCommitID : CommitID;
  pruning : PruningStrategy;
  storesParams : gmap StoreKey storeParams;
  stores : gmap StoreKey S;
  keysByName : gmap string StoreKey;
}.

Definition NewCommitMultiStore (db : DB) : Store :=
  mkRootStore db zeroCommitID 0%N ∅ ∅ ∅.

Definition SetPruning (p : PruningStrategy) (rs : Store) : Store :=
  mkRootStore (db rs) (lastCommitID rs) p (storesParams rs)
              (storeSetPruning p <$> stores rs) (keysByName rs).

(** [MountStoreWithDB]; [key] is [None] for a nil key.  The parameters
    recorded hold the key and the database; [typ] is left at its zero
    value. *)
Definition MountStoreWithDB (key : option StoreKey) (mdb : option DB)
    (rs : Store) : outcome Store :=
  match key with
  | None => Panic "MountIAVLStore() key cannot be nil"
  | Some key =>
      if decide (is_Some (storesParams rs !! key))
      then Panic ("Store duplicate store key " +:+ showStoreKey key)
      else if decide (is_Some (keysByName rs !! keyName key))
      then Panic ("Store duplicate store key name " +:+ showStoreKey key)
      else Done (mkRootStore (db rs) (lastCommitID rs) (pruning rs)
                   (<[key := mkStoreParams key mdb None]> (storesParams rs))
                   (stores rs)
                   (<[keyName key := key]> (keysByName rs)))
  end.

(** *** commitInfo *)

Definition storeInfoHash (si : storeInfo) : bytes :=
  Some (tmhashSum (marshalStoreCore (Core si))).

(** The map [m] built by [commitInfo.Hash]: a later entry of the slice
    overwrites an earlier one of the same name. *)
Definition hashMap (sis : list storeInfo) : gmap string storeInfo :=
  fold_left (λ m si, <[Name si := si]> m) sis ∅.

Definition commitInfoHash (ci : commitInfo) : bytes :=
  simpleHashFromMap (storeInfoHash <$> hashMap (StoreInfos ci)).

Definition commitInfoCommitID (ci : commitInfo) : CommitID :=
  mkCommitID (ciVersion ci) (commitInfoHash ci).

(** *** Misc. *)

Definition getLatestVersion (db : DB) : outcome Z :=
  match db !! latestVersionKey with
  | None => Done 0
  | Some latestBytes =>
      match unmarshalInt64 latestBytes with
      | Err e => Panic e
      | Ok latest => Done latest
      end
  end.

Definition setLatestVersion (batch : Batch) (version : Z) : Batch :=
  batchSet latestVersionKey (marshalInt64 version) batch.

(** One turn of the loop of [commitStores]; the store committed is updated
    in the map, since the map holds references. *)
Definition commitStoresStep (acc : list storeInfo * gmap StoreKey S)
    (kv : StoreKey * S) : list storeInfo * gmap StoreKey S :=
  let '(commitID, store') := storeCommit kv.2 in
  let storeMap' := <[kv.1 := store']> acc.2 in
  if IsZero commitID then (acc.1, storeMap')
  else (acc.1 ++ [mkStoreInfo (keyName kv.1) (mkStoreCore commitID)], storeMap').

(** [commitStores], the range over [storeMap] visiting the entries as
    [visited]. *)
Definition commitStores (version : Z) (visited : list (StoreKey * S))
    (storeMap : gmap StoreKey S) : commitInfo * gmap StoreKey S :=
  let acc := fold_left commitStoresStep visited ([], storeMap) in
  (mkCommitInfo version acc.1, acc.2).

Definition getCommitInfo (db : DB) (ver : Z) : result commitInfo :=
  match db !! commitInfoKey ver with
  | None => Err "failed to get Store: no data"
  | Some cInfoBytes =>
      match unmarshalCommitInfo cInfoBytes with
      | Err e => Err ("failed to get Store: " +:+ e)
      | Ok cInfo => Ok cInfo
      end
  end.

Definition setCommitInfo (batch : Batch) (version : Z) (cInfo : commitInfo)
    : outcome Batch :=
  match marshalCommitInfo cInfo with
  | Err e => Panic e
  | Ok cInfoBytes => Done (batchSet (commitInfoKey version) cInfoBytes batch)
  end.

(** *** Commit *)

Definition LastCommitID (rs : Store) : CommitID := lastCommitID rs.

Definition CommitVisiting (visited : list (StoreKey * S)) (rs : Store)
    : outcome (CommitID * Store) :=
  let version := int64_add (Version (lastCommitID rs)) 1 in
  let '(cInfo, stores') := commitStores version visited (stores rs) in
  batch ← setCommitInfo [] version cInfo;
  let batch := setLatestVersion batch version in
  let db' := batchWrite batch (db rs) in
  let commitID := mkCommitID version (commitInfoHash cInfo) in
  Done (commitID,
        mkRootStore db' commitID (pruning rs) (storesParams rs) stores'
                    (keysByName rs)).

Definition Commit (rs : Store) : outcome (CommitID * Store) :=
  CommitVisiting (map_to_list (stores rs)) rs.

(** *** Loading *)

(** The database handed to a sub-store: a prefixed view of its dedicated
    database, or of the root's. *)
Definition storeDB (rs : Store) (params : storeParams) : prefixDB :=
  match spDb params with
  | Some d => mkPrefixDB d "s/_/"
  | None => mkPrefixDB (db rs) ("s/k:" +:+ keyName (spKey params) +:+ "/")
  end.

(** [reflect.Zero] panics on a nil type; otherwise the sub-store is the
    zero value of the type. *)
Definition loadCommitStoreFromParams (rs : Store) (key : StoreKey)
    (id : CommitID) (params : storeParams) : outcome (S * option string) :=
  let db := storeDB rs params in
  match spTyp params with
  | None => Panic "reflect: Zero(nil)"
  | Some typ =>
      let store := zeroStore typ in
      let '(err, store) := storeLoadKVStoreVersion db id store in
      match err with
      | Some _ => Done (storeSetPruning (pruning rs) store, err)
      | None => Done (store, err)
      end
  end.

(** [nameToKey], the range over [rs.storesParams] visiting the keys as
    [visited]. *)
Definition nameToKeyVisiting (visited : list StoreKey) (name : string)
    : outcome StoreKey :=
  match List.find (λ key, bool_decide (keyName key = name)) visited with
  | Some key => Done key
  | None => Panic ("Unknown name " +:+ name)
  end.

(** The first loop of [LoadMultiStoreVersion]. *)
Fixpoint collectInfos (visited : list StoreKey) (sis : list storeInfo)
    (infos : gmap StoreKey storeInfo) : outcome (gmap StoreKey storeInfo) :=
  match sis with
  | [] => Done infos
  | si :: sis' =>
      key ← nameToKeyVisiting visited (Name si);
      collectInfos visited sis' (<[key := si]> infos)
  end.

(** The commit id a sub-store is asked to load: the one recorded for its
    key, the zero one when none is. *)
Definition expectedID (infos : gmap StoreKey storeInfo) (key : StoreKey)
    : CommitID :=
  match infos !! key with
  | Some info => coreCommitID (Core info)
  | None => zeroCommitID
  end.

(** The second loop of [LoadMultiStoreVersion]: [inl err] is the early
    return, [inr newStores] the completed loop. *)
Fixpoint loadStores (rs : Store) (infos : gmap StoreKey storeInfo)
    (visited : list (StoreKey * storeParams)) (newStores : gmap StoreKey S)
    : outcome (string + gmap StoreKey S) :=
  match visited with
  | [] => Done (inr newStores)
  | (key, params) :: visited' =>
      let id := expectedID infos key in
      '(store, err) ← loadCommitStoreFromParams rs key id params;
      match err with
      | Some e => Done (inl ("failed to load Store: " +:+ e))
      | None => loadStores rs infos visited' (<[key := store]> newStores)
      end
  end.

(** The first half of [LoadMultiStoreVersion]: the last commit id and the
    map [infos], or the error of [getCommitInfo]. *)
Definition loadInfos (visited : list StoreKey) (ver : Z) (rs : Store)
    : outcome (result (CommitID * gmap StoreKey storeInfo)) :=
  if decide (ver ≠ 0) then
    match getCommitInfo (db rs) ver with
    | Err e => Done (Err e)
    | Ok cInfo =>
        infos ← collectInfos visited (StoreInfos cInfo) ∅;
        Done (Ok (commitInfoCommitID cInfo, infos))
    end
  else Done (Ok (zeroCommitID, ∅)).

(** [LoadMultiStoreVersion], the ranges over [rs.storesParams] visiting the
    entries as [visited].  The result is the error returned ([None] for
    nil) and the receiver afterwards. *)
Definition LoadMultiStoreVersionVisiting
    (visited : list (StoreKey * storeParams)) (ver : Z) (rs : Store)
    : outcome (option string * Store) :=
  r ← loadInfos visited.*1 ver rs;
  match r with
  | Err e => Done (Some e, rs)
  | Ok (lastCommitID, infos) =>
      r ← loadStores rs infos visited ∅;
      match r with
      | inl err => Done (Some err, rs)
      | inr newStores =>
          Done (None, mkRootStore (db rs) lastCommitID (pruning rs)
                        (storesParams rs) newStores (keysByName rs))
      end
  end.

Definition LoadMultiStoreVersion (ver : Z) (rs : Store)
    : outcome (option string * Store) :=
  LoadMultiStoreVersionVisiting (map_to_list (storesParams rs)) ver rs.


(** *** Query *)

Definition getStoreByName (rs : Store) (name : string) : option S :=
  match keysByName rs !! name with
  | None => None
  | Some key => stores rs !! key
  end.

(** [parsePath] expects a format like [/<storeName>[/<subpath>]]. *)
Definition parsePath (path : string) : string * string * option sdkError :=
  if hasSlashPrefix path then
    let '(storeName, rest) := splitSlash2 (String.substring 1 (String.length path - 1) path) in
    match rest with
    | Some r => (storeName, "/" +:+ r, None)
    | None => (storeName, EmptyString, None)
    end
  else (EmptyString, EmptyString,
        Some (ErrUnknownRequest ("invalid path: " +:+ path))).

Definition Query (req : RequestQuery) (rs : Store) : ResponseQuery :=
  let '(storeName, subpath, err) := parsePath (Path req) in
  match err with
  | Some e => QueryResult e
  | None =>
      match getStoreByName rs storeName with
      | None => QueryResult (ErrUnknownRequest ("no such store: " +:+ storeName))
      | Some store =>
          match storeQueryable store with
          | None =>
              QueryResult (ErrUnknownRequest
                ("store " +:+ storeName +:+ " doesn't support queries"))
          | Some query =>
              let req := withPath req subpath in
              let res := query req in
              if negb (Prove req) || negb (RequireProof subpath) then res
              else match getCommitInfo (db rs) (resHeight res) with
                   | Err errMsg => QueryResult (ErrInternal errMsg)
                   | Ok cInfo =>
                       withProof res (buildMultiStoreProof (resProof res)
                                        storeName (StoreInfos cInfo))
                   end
          end
      end
  end.

(** *** Vocabulary of the properties *)

(** One call of [Commit], for some traversal of [rs.stores]. *)
Definition commitStep (rs : Store) (cid : CommitID) (rs' : Store) : Prop :=
  ∃ visited, visited ≡ₚ map_to_list (stores rs)
             ∧ CommitVisiting visited rs = Done (cid, rs').

(** A sequence of calls of [Commit] and the commit ids they returned. *)
Inductive commitRun : Store → list CommitID → Store → Prop :=
| commitRun_nil rs : commitRun rs [] rs
| commitRun_cons rs cid rs' cids rs'' :
    commitStep rs cid rs' → commitRun rs' cids rs'' →
    commitRun rs (cid :: cids) rs''.

(** The entry [commitStores] records for a visited store, if any. *)
Definition committedInfo (kv : StoreKey * S) : option storeInfo :=
  let commitID := (storeCommit kv.2).1 in
  if IsZero commitID then None
  else Some (mkStoreInfo (keyName kv.1) (mkStoreCore commitID)).

(** No two keys of the map carry the same name, as [MountStoreWithDB]
    ensures of the keys it accepts. *)
Definition distinctNames {V : Type} (m : gmap StoreKey V) : Prop :=
  ∀ k1 k2, is_Some (m !! k1) → is_Some (m !! k2) →
           keyName k1 = keyName k2 → k1 = k2.

(** Every mounted key is the one the name index holds for its name. *)
Definition nameIndexed (rs : Store) : Prop :=
  ∀ key, is_Some (storesParams rs !! key) →
         keysByName rs !! keyName key = Some key.

(** A root made by [NewCommitMultiStore] and mounts that were accepted. *)
Inductive mounted : Store → Prop :=
| mounted_new d : mounted (NewCommitMultiStore d)
| mounted_mount rs key mdb rs' :
    mounted rs → MountStoreWithDB key mdb rs = Done rs' → mounted rs'.

(** The entries a load of version [ver] finds recorded: those of the
    commit info persisted for [ver], none for version 0. *)
Definition recordedInfos (rs : Store) (ver : Z) : list storeInfo :=
  if decide (ver = 0) then []
  else match getCommitInfo (db rs) ver with
       | Ok cInfo => StoreInfos cInfo
       | Err _ => []
       end.

(** The commit id a load of version [ver] restores. *)
Definition recordedCommitID (rs : Store) (ver : Z) : CommitID :=
  if decide (ver = 0) then zeroCommitID
  else match getCommitInfo (db rs) ver with
       | Ok cInfo => commitInfoCommitID cInfo
       | Err _ => zeroCommitID
       end.

(** The shapes of a query path: no leading slash, [/<storeName>], and
    [/<storeName>/<rest>]; the last two with the store name and the
    sub-path they denote. *)
Inductive pathShape : string → option (string * string) → Prop :=
| shape_invalid path :
    hasSlashPrefix path = false → pathShape path None
| shape_store name :
    noSlash name = true →
    pathShape ("/" +:+ name) (Some (name, EmptyString))
| shape_sub name rest :
    noSlash name = true →
    pathShape ("/" +:+ name +:+ "/" +:+ rest) (Some (name, "/" +:+ rest)).

End Root.

End RootMulti.

(** ** x/bank/client/util.go *)

Module BankClient.

(** [sdk.AccAddress]. *)
Definition AccAddress : Type := bytes.

(** [sdk.Coin] and [sdk.Coins]. *)
Record Coin : Type := mkCoin {
  Denom : string;
  Amount : Z;
}.
Definition Coins : Type := list Coin.

(** Modelled from the spec: the bank message types and their constructors
    [bank.NewInput], [bank.NewOutput] and [bank.NewMsgSend] are declared in
    x/bank, outside x/bank/client/util.go.  An input is taken to carry an
    address and coins, an output likewise, and a send message its inputs
    and outputs, each constructor storing its arguments. *)
Record Input : Type := mkInput {
  inAddress : AccAddress;
  inCoins : Coins;
}.

Record Output : Type := mkOutput {
  outAddress : AccAddress;
  outCoins : Coins;
}.

Record MsgSend : Type := mkMsgSend {
  Inputs : list Input;
  Outputs : list Output;
}.

Definition NewInput (addr : AccAddress) (coins : Coins) : Input :=
  mkInput addr coins.
Definition NewOutput (addr : AccAddress) (coins : Coins) : Output :=
  mkOutput addr coins.
Definition NewMsgSend (ins : list Input) (outs : list Output) : MsgSend :=
  mkMsgSend ins outs.

(** create the sendTx msg *)
Definition CreateMsg (from to : AccAddress) (coins : Coins) : MsgSend :=
  let input := NewInput from coins in
  let output := NewOutput to coins in
  let msg := NewMsgSend [input] [output] in
  msg.

(** The amount of one denomination held in a coin set, and the totals
    moved by a message. *)
Definition amountOf (denom : string) (coins : Coins) : Z :=
  foldr (λ c acc, if decide (Denom c = denom) then Amount c + acc else acc) 0 coins.

Definition totalIn (denom : string) (msg : MsgSend) : Z :=
  foldr (λ i acc, amountOf denom (inCoins i) + acc) 0 (Inputs msg).

Definition totalOut (denom : string) (msg : MsgSend) : Z :=
  foldr (λ o acc, amountOf denom (outCoins o) + acc) 0 (Outputs msg).

End BankClient.

(** ** Instances used in the examples *)

Module Fixtures.
Import RootMulti.

(** Three kinds of sub-store: one that commits a growing version, a
    transient one that always reports the zero commit id, and one whose
    load fails. *)
Inductive kind : Type := Versioned | Transient | Failing.

(** A sub-store that records the calls made on it. *)
Record recStore : Type := mkRecStore {
  rKind : kind;
  rVersion : Z;
  rLoaded : list (string * CommitID);
  rPruned : list PruningStrategy;
}.

Definition recCommit (s : recStore) : CommitID * recStore :=
  match rKind s with
  | Transient => (zeroCommitID, s)
  | _ =>
      let v := int64_add (rVersion s) 1 in
      (mkCommitID v (Some ("h" +:+ format_int v)),
       mkRecStore (rKind s) v (rLoaded s) (rPruned s))
  end.

Definition recSetPruning (p : PruningStrategy) (s : recStore) : recStore :=
  mkRecStore (rKind s) (rVersion s) (rLoaded s) (rPruned s ++ [p]).

Definition recLoad (d : prefixDB) (id : CommitID) (s : recStore)
    : option string * recStore :=
  let s' := mkRecStore (rKind s) (Version id)
                       (rLoaded s ++ [(pprefix d, id)]) (rPruned s) in
  match rKind s with
  | Failing => (Some "corrupt tree"%string, s')
  | _ => (None, s')
  end.

Definition recQuery (s : recStore) (req : RequestQuery) : ResponseQuery :=
  mkResponseQuery 0 (Path req) (Data req) (Some "subproof"%string) (rVersion s).

#[export] Instance recStore_CommitKVStore : CommitKVStore kind recStore := {
  zeroStore k := mkRecStore k 0 [] [];
  storeCommit := recCommit;
  storeSetPruning := recSetPruning;
  storeLoadKVStoreVersion := recLoad;
  storeQueryable s :=
    match rKind s with
    | Versioned => Some (recQuery s)
    | _ => None
    end;
}.

(** A commit info as it could have been persisted for version 1. *)
Definition savedInfo : commitInfo :=
  mkCommitInfo 1 [mkStoreInfo "acc" (mkStoreCore (mkCommitID 1 (Some "h1"%string)));
                  mkStoreInfo "gone" (mkStoreCore (mkCommitID 1 (Some "h1"%string)))].

Definition showCommitID (c : CommitID) : string :=
  format_int (Version c) +:+ ":" +:+ string_of_bytes (Hash c).

(** Stand-ins for the encoder, the hash and the merkle primitive. *)
#[export] Instance plainExternals : Externals := {
  marshalStoreCore c := showCommitID (coreCommitID c);
  marshalCommitInfo ci := Ok ("ci" +:+ format_int (ciVersion ci));
  unmarshalCommitInfo bz :=
    if decide (bz = "saved"%string) then Ok savedInfo else Err "bad bytes";
  marshalInt64 := format_int;
  unmarshalInt64 bz := Err "unused";
  tmhashSum bz := ("#" +:+ bz)%string;
  simpleHashFromMap m :=
    Some (String.concat ";" ((λ kv, kv.1 +:+ "=" +:+ string_of_bytes kv.2) <$>
                              merge_sort (λ a b, String.le a.1 b.1) (map_to_list m)));
  showStoreKey key := ("KVStoreKey{" +:+ keyName key +:+ "}")%string;
  RequireProof subpath := bool_decide (subpath = "/store"%string ∨ subpath = "/key"%string);
  buildMultiStoreProof proof name sis :=
    Some (string_of_bytes proof +:+ "|" +:+ name);
  QueryResult e :=
    match e with
    | ErrUnknownRequest msg => mkResponseQuery 6 msg None None 0
    | ErrInternal msg => mkResponseQuery 1 msg None None 0
    end;
}.

Definition accKey : StoreKey := mkStoreKey 1 "acc".
Definition bankKey : StoreKey := mkStoreKey 2 "bank".
Definition tmpKey : StoreKey := mkStoreKey 3 "tmp".
Definition badKey : StoreKey := mkStoreKey 4 "bad".

Definition accStore : recStore := mkRecStore Versioned 0 [] [].
Definition bankStore : recStore := mkRecStore Versioned 4 [] [].
Definition tmpStore : recStore := mkRecStore Transient 0 [] [].

(** A root with three loaded sub-stores, one of them transient. *)
Definition loadedRoot : Store (T := kind) (S := recStore) :=
  mkRootStore ∅ zeroCommitID 0%N
    (<[accKey := mkStoreParams accKey None (Some Versioned)]>
       (<[bankKey := mkStoreParams bankKey None (Some Versioned)]>
          (<[tmpKey := mkStoreParams tmpKey None (Some Transient)]> ∅)))
    (<[accKey := accStore]> (<[bankKey := bankStore]> (<[tmpKey := tmpStore]> ∅)))
    (<[("acc"%string) := accKey]>
       (<[("bank"%string) := bankKey]> (<[("tmp"%string) := tmpKey]> ∅))).

(** The same root after one and after two commits. *)
Definition commit1 : CommitID * Store (T := kind) (S := recStore) :=
  returned (zeroCommitID, loadedRoot) (Commit loadedRoot).
Definition commit2 : CommitID * Store (T := kind) (S := recStore) :=
  returned (zeroCommitID, loadedRoot) (Commit commit1.2).

(** A mounted root, not loaded yet, one of whose sub-stores fails to
    load. *)
Definition accParams : storeParams (T := kind) :=
  mkStoreParams accKey None (Some Versioned).
Definition badParams : storeParams (T := kind) :=
  mkStoreParams badKey None (Some Failing).

Definition withFailing : Store (T := kind) (S := recStore) :=
  mkRootStore ∅ zeroCommitID 3%N
    (<[accKey := accParams]> (<[badKey := badParams]> ∅))
    ∅
    (<[("acc"%string) := accKey]> (<[("bad"%string) := badKey]> ∅)).

(** A mounted root whose database holds, for version 1, a commit info
    naming a store "gone" that is not mounted. *)
Definition staleRoot : Store (T := kind) (S := recStore) :=
  mkRootStore (<[("s/1"%string) := "saved"%string]> ∅) zeroCommitID 0%N
    (<[accKey := accParams]> ∅)
    ∅
    (<[("acc"%string) := accKey]> ∅).

(** The commit info of the first commit of [loadedRoot]. *)
Definition firstInfo : commitInfo :=
  (commitStores 1 (map_to_list (stores loadedRoot)) (stores loadedRoot)).1.

(** An encoder that decodes what it encoded: decimal text for a version,
    and a one-entry table for the commit infos. *)
Definition tableExternals : Externals := {|
  marshalStoreCore c := showCommitID (coreCommitID c);
  marshalCommitInfo ci :=
    if decide (ci = firstInfo) then Ok "first"%string else Err "not in the table";
  unmarshalCommitInfo bz :=
    if decide (bz = "first"%string) then Ok firstInfo else Err "bad bytes";
  marshalInt64 := format_int;
  unmarshalInt64 bz :=
    match NilZero.int_of_string bz with
    | Some d => Ok (Z.of_int d)
    | None => Err "bad int"
    end;
  tmhashSum bz := ("#" +:+ bz)%string;
  simpleHashFromMap m :=
    Some (String.concat ";" ((λ kv, kv.1 +:+ "=" +:+ string_of_bytes kv.2) <$>
                              merge_sort (λ a b, String.le a.1 b.1) (map_to_list m)));
  showStoreKey key := ("KVStoreKey{" +:+ keyName key +:+ "}")%string;
  RequireProof subpath := bool_decide (subpath = "/store"%string ∨ subpath = "/key"%string);
  buildMultiStoreProof proof name sis :=
    Some (string_of_bytes proof +:+ "|" +:+ name);
  QueryResult e :=
    match e with
    | ErrUnknownRequest msg => mkResponseQuery 6 msg None None 0
    | ErrInternal msg => mkResponseQuery 1 msg None None 0
    end;
|}.

(** [loadedRoot] after its first commit under that encoder. *)
Definition committed : CommitID * Store (T := kind) (S := recStore) :=
  returned (zeroCommitID, loadedRoot)
    (CommitVisiting (H := tableExternals) (map_to_list (stores loadedRoot)) loadedRoot).

(** A new root with the stores "acc" and "bank" mounted. *)
Definition mountedRoot : Store (T := kind) (S := recStore) :=
  returned (NewCommitMultiStore ∅)
    (rs ← MountStoreWithDB (Some accKey) None (NewCommitMultiStore ∅);
     MountStoreWithDB (Some bankKey) None rs).

(** An overlay over an in-memory parent holding a pending write, a
    tombstone, a read-through snapshot and a dirty entry with a nil value. *)
Definition sampleParent : Cache.memStore :=
  <[("a"%string) := "1"%string]> (<[("b"%string) := "2"%string]> (<[("n"%string) := "5"%string]> ∅)).

Definition sampleOverlay : Cache.Store Cache.memStore :=
  Cache.mkStore
    (<[("c"%string) := Cache.mkCValue (Some "3"%string) false true]>
       (<[("b"%string) := Cache.mkCValue None true true]>
          (<[("a"%string) := Cache.mkCValue (Some "1"%string) false false]>
             (<[("n"%string) := Cache.mkCValue None false true]> ∅))))
    sampleParent.

(** An overlay in step with its parent: a pending write, a tombstone and
    a read-through snapshot. *)
Definition tidyOverlay : Cache.Store Cache.memStore :=
  Cache.mkStore
    (<[("c"%string) := Cache.mkCValue (Some "3"%string) false true]>
       (<[("b"%string) := Cache.mkCValue None true true]>
          (<[("a"%string) := Cache.mkCValue (Some "1"%string) false false]> ∅)))
    sampleParent.

(** An overlay over that overlay. *)
Definition nestedOverlay : Cache.Store (Cache.Store Cache.memStore) :=
  Cache.mkStore
    (<[("a"%string) := Cache.mkCValue None true true]>
       (<[("d"%string) := Cache.mkCValue (Some "4"%string) false true]> ∅))
    tidyOverlay.

(** The committed root, loaded again at version 1. *)
Definition reloaded : option string * Store (T := kind) (S := recStore) :=
  returned (None, loadedRoot)
    (LoadMultiStoreVersionVisiting (H := tableExternals)
       (map_to_list (storesParams committed.2)) 1 committed.2).

End Fixtures.

(** * Properties *)

(** ** The cache overlay *)

Section CacheFacts.
Import Cache.
Context {P : Type} `{!KVStore P}.

Lemma flushKeys_runCalls (c : gmap string cValue) (keys : list string) (p : P) :
  flushKeys c keys p
  = runCalls (omap (λ key, callOf key (default zeroCValue (c !! key))) keys) p.
Proof.
  revert p. induction keys as [|key keys IH]; intros p; [done|].
  cbn [flushKeys omap list_omap]. unfold flushKey at 1, callOf at 1.
  destruct (deleted (default zeroCValue (c !! key))); cbn.
  - destruct (kvDelete (bytes_of_string key) p); cbn; [apply IH|done].
  - destruct (value (default zeroCValue (c !! key))) as [v|]; cbn.
    + destruct (kvSet (bytes_of_string key) (Some v) p); cbn; [apply IH|done].
    + apply IH.
Qed.

Lemma dirtyKeys_Permutation (l1 l2 : list (string * cValue)) :
  l1 ≡ₚ l2 → dirtyKeys l1 ≡ₚ dirtyKeys l2.
Proof. intros H. unfold dirtyKeys. by rewrite H. Qed.

Lemma dirtyKeys_NoDup (l : list (string * cValue)) :
  NoDup l.*1 → NoDup (dirtyKeys l).
Proof.
  intros H. unfold dirtyKeys.
  apply (sublist_NoDup _ l.*1); [exact H|].
  apply fmap_sublist, sublist_filter.
Qed.

Lemma elem_of_dirtyKeys (m : gmap string cValue) (key : string) :
  key ∈ dirtyKeys (map_to_list m)
  ↔ ∃ cv, m !! key = Some cv ∧ dirty cv = true.
Proof.
  unfold dirtyKeys. rewrite list_elem_of_fmap. split.
  - intros [[k cv] [-> [Hd Hin]%list_elem_of_filter]].
    exists cv. split; [by apply elem_of_map_to_list|done].
  - intros (cv & Hm & Hd). exists (key, cv). split; [done|].
    apply list_elem_of_filter. split; [done|by apply elem_of_map_to_list].
Qed.

Lemma sortStrings_unique (l1 l2 : list string) :
  l1 ≡ₚ l2 → sortStrings l1 = sortStrings l2.
Proof.
  intros H. unfold sortStrings.
  apply (Sorted_unique String.le).
  - apply (Sorted_merge_sort _).
  - apply (Sorted_merge_sort _).
  - by rewrite !merge_sort_Permutation.
Qed.

Lemma StronglySorted_strict (l : list string) :
  StronglySorted String.le l → NoDup l → StronglySorted (strict String.le) l.
Proof.
  induction 1 as [|x l Hs IH Hall]; intros Hnd; [constructor|].
  apply NoDup_cons in Hnd as [Hx Hnd]. constructor; [by apply IH|].
  apply Forall_forall. intros y Hy. split.
  - by eapply Forall_forall in Hall.
  - intros Hyx. assert (x = y) as ->; [|done].
    apply (anti_symm String.le); [|done]. by eapply Forall_forall in Hall.
Qed.

Lemma StronglySorted_omap_keys (f : string → option parentCall) (keys : list string) :
  (∀ key c, f key = Some c → callKey c = key) →
  StronglySorted (strict String.le) keys →
  StronglySorted (strict String.le) (callKey <$> omap f keys).
Proof.
  intros Hf. induction 1 as [|x l Hs IH Hall]; [constructor|].
  cbn [omap list_omap]. destruct (f x) as [c|] eqn:Hc; [|done].
  cbn. constructor; [done|]. rewrite (Hf _ _ Hc).
  apply Forall_forall. intros k [c' [-> Hin]]%list_elem_of_fmap.
  apply list_elem_of_omap in Hin as (k' & Hk' & Hfk').
  rewrite (Hf _ _ Hfk'). by eapply Forall_forall in Hall.
Qed.

Lemma callOf_key (key : string) (cv : cValue) (c : parentCall) :
  callOf key cv = Some c → callKey c = key.
Proof.
  unfold callOf. destruct (deleted cv); [by intros [= <-]|].
  destruct (value cv); by intros [= <-].
Qed.

(** C3. [Write] makes on the parent exactly the calls that the dirty
    entries of the overlay ask for: a [Delete] for each tombstone, a [Set]
    for each dirty entry with a value, nothing for a dirty entry whose
    value is nil and nothing for a clean entry; it makes them in strictly
    ascending byte-wise order of their keys, whatever the order in which
    the map was traversed; and it leaves an empty overlay map. *)
Theorem Write_flushes_dirty_entries_in_key_order
    (ci : Store P) (visited : list (string * cValue)) :
  visited ≡ₚ map_to_list (cache ci) →
  ∃ calls : list parentCall,
    WriteVisiting visited ci
      = (p' ← runCalls calls (parent ci); Done (mkStore ∅ p'))
    ∧ WriteVisiting visited ci = Write ci
    ∧ StronglySorted (strict String.le) (callKey <$> calls)
    ∧ ∀ c, c ∈ calls ↔
        ∃ cv, cache ci !! callKey c = Some cv ∧ dirty cv = true ∧
          ((deleted cv = true ∧ c = CallDelete (callKey c)) ∨
           (deleted cv = false ∧ ∃ v, value cv = Some v ∧ c = CallSet (callKey c) v)).
Proof.
  intros Hperm.
  set (f := λ key, callOf key (default zeroCValue (cache ci !! key))).
  assert (Hkeys : sortStrings (dirtyKeys visited)
                  = sortStrings (dirtyKeys (map_to_list (cache ci)))).
  { by apply sortStrings_unique, dirtyKeys_Permutation. }
  exists (omap f (sortStrings (dirtyKeys visited))).
  split_and!.
  - unfold WriteVisiting. by rewrite flushKeys_runCalls.
  - unfold Write, WriteVisiting. by rewrite Hkeys.
  - apply StronglySorted_omap_keys.
    { intros key c. apply callOf_key. }
    apply StronglySorted_strict.
    + apply (StronglySorted_merge_sort _).
    + unfold sortStrings. rewrite merge_sort_Permutation, (dirtyKeys_Permutation _ _ Hperm).
      apply dirtyKeys_NoDup, NoDup_fst_map_to_list.
  - intros c. rewrite list_elem_of_omap. split.
    + intros (key & Hin & Hc).
      unfold sortStrings in Hin. rewrite merge_sort_Permutation, (dirtyKeys_Permutation _ _ Hperm) in Hin.
      apply elem_of_dirtyKeys in Hin as (cv & Hcv & Hd).
      unfold f in Hc. rewrite Hcv in Hc. cbn in Hc.
      pose proof (callOf_key _ _ _ Hc) as Hk. rewrite Hk.
      exists cv. split_and!; [done..|].
      unfold callOf in Hc. destruct (deleted cv).
      * left. split; [done|]. by injection Hc as <-.
      * right. split; [done|]. destruct (value cv) as [v|]; [|done].
        exists v. split; [done|]. by injection Hc as <-.
    + intros (cv & Hcv & Hd & Hcase). exists (callKey c). split.
      * unfold sortStrings. rewrite merge_sort_Permutation, (dirtyKeys_Permutation _ _ Hperm).
        apply elem_of_dirtyKeys. eauto.
      * unfold f. rewrite Hcv. cbn. unfold callOf.
        destruct Hcase as [[-> Hc]|[-> (v & -> & Hc)]]; by rewrite <- Hc.
Qed.

(** C4. The overlay rejects a key exactly when it is nil: [Set] and
    [Delete] panic with "key is nil" on the nil key and on no other, so
    the empty non-nil key is accepted; [Get] panics with "key is nil" on
    the nil key, and on a non-nil key it can only fail where the parent's
    own [Get] does. *)
Theorem overlay_rejects_exactly_the_nil_key (key val : bytes) (ci : Store P) :
  (panics (Set_ key val ci) ↔ key = None)
  ∧ (panics (Delete key ci) ↔ key = None)
  ∧ (Set_ None val ci = Panic "key is nil"
     ∧ Delete None ci = Panic "key is nil"
     ∧ Get None ci = Panic "key is nil")
  ∧ (panics (Get key ci) ↔
       key = None ∨ (cache ci !! string_of_bytes key = None
                     ∧ panics (kvGet key (parent ci)))).
Proof.
  split_and!; try done.
  - destruct key; cbn; split; (done || tauto).
  - destruct key; cbn; split; (done || tauto).
  - destruct key as [k|]; cbn; [|tauto].
    destruct (cache ci !! k) as [cv|]; cbn.
    + split; [done|]. by intros [|[]].
    + destruct (kvGet (Some k) (parent ci)) as [[v p']|msg]; cbn.
      * split; [done|]. by intros [|[]].
      * split; [by right|done].
Qed.

(** C5. [Set] with a non-nil key accepts every value, the nil value
    included: it records [(value, deleted=false, dirty=true)] under the
    key and leaves the parent alone, and a following [Get] of that key
    returns the recorded value without consulting the parent. *)
Theorem Set_records_any_value (k : string) (val : bytes) (ci : Store P) :
  let ci' := mkStore (<[k := mkCValue val false true]> (cache ci)) (parent ci) in
  Set_ (Some k) val ci = Done ci'
  ∧ Get (Some k) ci' = Done (val, ci').
Proof.
  cbn. split; [done|]. unfold Get. cbn.
  by rewrite lookup_insert_eq.
Qed.

End CacheFacts.

Import Cache.

Lemma Write_flushes_dirty_entries_in_key_order_witness :
  ∃ calls : list parentCall,
    WriteVisiting (map_to_list (cache Fixtures.sampleOverlay)) Fixtures.sampleOverlay
      = (p' ← runCalls calls (parent Fixtures.sampleOverlay); Done (mkStore ∅ p'))
    ∧ WriteVisiting (map_to_list (cache Fixtures.sampleOverlay)) Fixtures.sampleOverlay
      = Write Fixtures.sampleOverlay
    ∧ StronglySorted (strict String.le) (callKey <$> calls)
    ∧ ∀ c, c ∈ calls ↔
        ∃ cv, cache Fixtures.sampleOverlay !! callKey c = Some cv ∧ dirty cv = true ∧
          ((deleted cv = true ∧ c = CallDelete (callKey c)) ∨
           (deleted cv = false ∧ ∃ v, value cv = Some v ∧ c = CallSet (callKey c) v)).
Proof.
  apply (Write_flushes_dirty_entries_in_key_order Fixtures.sampleOverlay
           (map_to_list (cache Fixtures.sampleOverlay))).
  reflexivity.
Defined.

(** The shadowing scenario: the tombstone and the pending write reach the
    parent, the snapshot and the dirty nil value do not. *)
Example Write_sampleOverlay :
  Write Fixtures.sampleOverlay
  = Done (mkStore ∅ (<[("a"%string) := "1"%string]>
                       (<[("c"%string) := "3"%string]>
                          (<[("n"%string) := "5"%string]> ∅)))).
Proof. vm_compute. reflexivity. Qed.

(** The empty, non-nil key is not rejected: [Set], [Delete] and [Get]
    return normally on it. *)
Lemma empty_key_is_accepted :
  ¬ (panics (Set_ (Some EmptyString) (Some "v"%string) (NewStore (∅ : memStore)))
     ↔ (Some EmptyString = None ∨ string_of_bytes (Some EmptyString) = EmptyString))
  ∧ Set_ (Some EmptyString) (Some "v"%string) (NewStore (∅ : memStore))
    = Done (mkStore {[ EmptyString := mkCValue (Some "v"%string) false true ]} ∅)
  ∧ Delete (Some EmptyString) (NewStore (∅ : memStore))
    = Done (mkStore {[ EmptyString := mkCValue None true true ]} ∅)
  ∧ Get (Some EmptyString) (NewStore (∅ : memStore))
    = Done (None, mkStore {[ EmptyString := mkCValue None false false ]} ∅).
Proof.
  split; [|vm_compute; done].
  intros [_ Hpanic]. apply Hpanic. by right.
Qed.

(** [Set] with a nil value is not rejected: it returns normally and
    records a dirty entry. *)
Lemma Set_nil_value_is_recorded :
  ¬ panics (Set_ (Some "a"%string) None (NewStore (∅ : memStore)))
  ∧ Set_ (Some "a"%string) None (NewStore (∅ : memStore))
    = Done (mkStore {[ "a"%string := mkCValue None false true ]} ∅).
Proof. split; [by intros []|]. vm_compute. done. Qed.

(** ** The root multi-store: commit *)

Section CommitFacts.
Import RootMulti.
Context {T S : Type} `{!CommitKVStore T S} `{!Externals}.

Lemma int64_add_1_no_overflow (v : Z) :
  int64_min ≤ v → v < int64_max → int64_add v 1 = v + 1.
Proof.
  unfold int64_add, int64_wrap, int64_min, int64_max. intros Hlo Hhi.
  rewrite Z.mod_small; lia.
Qed.

Lemma CommitVisiting_inv (visited : list (StoreKey * S)) (rs rs' : Store)
    (cid : CommitID) :
  CommitVisiting visited rs = Done (cid, rs') →
  Version cid = int64_add (Version (lastCommitID rs)) 1
  ∧ lastCommitID rs' = cid
  ∧ storesParams rs' = storesParams rs
  ∧ keysByName rs' = keysByName rs.
Proof.
  unfold CommitVisiting.
  destruct (commitStores _ visited (stores rs)) as [cInfo stores'].
  unfold setCommitInfo. destruct (marshalCommitInfo cInfo) as [bz|e]; cbn; [|done].
  intros [= <- <-]. done.
Qed.

Lemma CommitVisiting_returns (visited : list (StoreKey * S)) (rs : Store) :
  (∀ ci, ∃ bz, marshalCommitInfo ci = Ok bz) →
  ∃ cid rs', CommitVisiting visited rs = Done (cid, rs').
Proof.
  intros Henc. unfold CommitVisiting.
  destruct (commitStores _ visited (stores rs)) as [cInfo stores'].
  unfold setCommitInfo. destruct (Henc cInfo) as [bz ->]. cbn. eauto.
Qed.

Lemma last_cons_default {A} (x d : A) (l : list A) :
  List.last (x :: l) d = List.last l x.
Proof.
  revert x d. induction l as [|y l IH]; intros x d; [done|].
  change (List.last (x :: y :: l) d) with (List.last (y :: l) d).
  by rewrite (IH y d), (IH y x).
Qed.

Lemma commitRun_versions (rs rs' : Store) (cids : list CommitID) :
  commitRun rs cids rs' →
  int64_min ≤ Version (lastCommitID rs) →
  Version (lastCommitID rs) + Z.of_nat (length cids) ≤ int64_max →
  Version <$> cids = seqZ (Version (lastCommitID rs) + 1) (Z.of_nat (length cids))
  ∧ LastCommitID rs' = List.last cids (lastCommitID rs).
Proof.
  induction 1 as [rs|rs cid rs1 cids rs2 (visited & _ & Hstep) Hrun IH];
    intros Hlo Hhi; [done|].
  apply CommitVisiting_inv in Hstep as (Hv & Hlast & _).
  cbn [length] in Hhi.
  rewrite int64_add_1_no_overflow in Hv by lia.
  rewrite Hlast in IH. destruct IH as [IHv IHl]; [lia..|].
  split.
  - cbn [fmap list_fmap length]. rewrite seqZ_cons by lia. f_equal; [done|].
    rewrite IHv, Hv. f_equal; lia.
  - by rewrite IHl, last_cons_default.
Qed.

(** C1. The versions returned by any sequence of calls of [Commit] on a
    root whose last committed version is [v] are [v+1, v+2, ...] without
    gaps (so [1, 2, 3, ...] from a fresh root), and [LastCommitID] is then
    the commit id returned last.  Moreover the next call of [Commit]
    returns, whatever the traversal of the store map: its version is the
    [int64] sum of the last committed version and one, and [LastCommitID]
    is what it returned.  The encoder is taken to accept every commit info
    and the versions to stay below the upper end of [int64]. *)
Theorem Commit_versions_are_consecutive
    (rs rs' : Store) (cids : list CommitID) :
  (∀ ci, ∃ bz, marshalCommitInfo ci = Ok bz) →
  commitRun rs cids rs' →
  int64_min ≤ Version (LastCommitID rs) →
  Version (LastCommitID rs) + Z.of_nat (length cids) ≤ int64_max →
  Version <$> cids
    = seqZ (Version (LastCommitID rs) + 1) (Z.of_nat (length cids))
  ∧ LastCommitID rs' = List.last cids (LastCommitID rs)
  ∧ ∀ visited, ∃ cid rs'',
      CommitVisiting visited rs' = Done (cid, rs'')
      ∧ Version cid = int64_add (Version (LastCommitID rs')) 1
      ∧ LastCommitID rs'' = cid.
Proof.
  intros Henc Hrun Hlo Hhi.
  destruct (commitRun_versions _ _ _ Hrun Hlo Hhi) as [Hv Hl].
  split_and!; [done..|].
  intros visited.
  destruct (CommitVisiting_returns visited rs' Henc) as (cid & rs'' & Hc).
  exists cid, rs''. split; [done|].
  by apply CommitVisiting_inv in Hc as (? & ? & _).
Qed.

Lemma fold_commitStoresStep (visited : list (StoreKey * S))
    (acc : list storeInfo * gmap StoreKey S) :
  fold_left commitStoresStep visited acc
  = (acc.1 ++ omap committedInfo visited,
     fold_left (λ m kv, <[kv.1 := (storeCommit kv.2).2]> m) visited acc.2).
Proof.
  revert acc. induction visited as [|[k st] visited IH]; intros [sis m]; cbn.
  { by rewrite app_nil_r. }
  rewrite IH. unfold commitStoresStep, committedInfo. cbn.
  destruct (storeCommit st) as [cid st']. cbn.
  destruct (IsZero cid); cbn; [done|]. by rewrite <- app_assoc.
Qed.

Lemma fold_insert_fmap {V W : Type} (f : V → W) (l : list (StoreKey * V))
    (m0 : gmap StoreKey W) :
  NoDup l.*1 →
  fold_left (λ m kv, <[kv.1 := f kv.2]> m) l m0
  = (f <$> (list_to_map l : gmap StoreKey V)) ∪ m0.
Proof.
  revert m0. induction l as [|[k v] l IH]; intros m0 Hnd.
  { cbn. by rewrite fmap_empty, (left_id_L ∅ (∪)). }
  rewrite fmap_cons in Hnd. apply NoDup_cons in Hnd as [Hk Hnd].
  cbn [fold_left]. rewrite IH by done.
  rewrite list_to_map_cons, fmap_insert. cbn [fst snd].
  rewrite <- insert_union_l. symmetry. apply insert_union_r.
  rewrite lookup_fmap. by rewrite (not_elem_of_list_to_map_1 _ _ Hk).
Qed.

Lemma commitStores_result (version : Z) (visited : list (StoreKey * S))
    (storeMap : gmap StoreKey S) :
  visited ≡ₚ map_to_list storeMap →
  commitStores version visited storeMap
  = (mkCommitInfo version (omap committedInfo visited),
     (λ st, (storeCommit st).2) <$> storeMap).
Proof.
  intros Hperm. unfold commitStores. rewrite fold_commitStoresStep.
  cbn [fst snd app]. f_equal.
  rewrite (fold_insert_fmap (λ st, (storeCommit st).2)).
  2:{ rewrite Hperm. apply NoDup_fst_map_to_list. }
  assert ((list_to_map visited : gmap StoreKey S) = storeMap) as ->.
  { rewrite <- (list_to_map_to_list storeMap).
    apply list_to_map_proper; [|done].
    rewrite Hperm. apply NoDup_fst_map_to_list. }
  apply map_eq. intros k. rewrite lookup_union, !lookup_fmap.
  by destruct (storeMap !! k).
Qed.

Lemma hashMap_snoc (sis : list storeInfo) (si : storeInfo) :
  hashMap (sis ++ [si]) = <[Name si := si]> (hashMap sis).
Proof. unfold hashMap. by rewrite fold_left_app. Qed.

(** With one entry per name, [hashMap] holds exactly the entries of the
    slice, each under its name. *)
Lemma hashMap_lookup (sis : list storeInfo) (name : string) (si : storeInfo) :
  (∀ a b, a ∈ sis → b ∈ sis → Name a = Name b → a = b) →
  hashMap sis !! name = Some si ↔ si ∈ sis ∧ Name si = name.
Proof.
  revert si. induction sis as [|x sis IH] using rev_ind; intros si Hfun.
  { unfold hashMap. cbn. rewrite lookup_empty. split; [done|].
    by intros [?%elem_of_nil _]. }
  rewrite hashMap_snoc.
  assert (Hfun' : ∀ a b, a ∈ sis → b ∈ sis → Name a = Name b → a = b).
  { intros a b Ha Hb. apply Hfun; apply elem_of_app; by left. }
  destruct (decide (Name x = name)) as [<-|Hne].
  - rewrite lookup_insert_eq. split.
    + intros [= <-]. split; [|done]. apply elem_of_app. right. by apply list_elem_of_singleton.
    + intros [Hin Hname]. f_equal. apply Hfun; [| |done].
      * apply elem_of_app. right. by apply list_elem_of_singleton.
      * done.
  - rewrite lookup_insert_ne by done. rewrite IH by done.
    split; intros [Hin Hname]; (split; [|done]).
    + apply elem_of_app. by left.
    + apply elem_of_app in Hin as [Hin| ->%list_elem_of_singleton]; [done|].
      by destruct Hne.
Qed.

(** The hash of a commit info is determined by the set of its entries,
    when the set has one entry per name. *)
Lemma commitInfoHash_same_entries (ci1 ci2 : commitInfo) :
  (∀ si, si ∈ StoreInfos ci1 ↔ si ∈ StoreInfos ci2) →
  (∀ a b, a ∈ StoreInfos ci1 → b ∈ StoreInfos ci1 → Name a = Name b → a = b) →
  commitInfoHash ci1 = commitInfoHash ci2.
Proof.
  intros Hset Hfun. unfold commitInfoHash. do 2 f_equal.
  apply map_eq. intros name. apply option_eq. intros si.
  rewrite !hashMap_lookup; [by rewrite Hset|..|done].
  intros a b Ha Hb. apply Hfun; by apply Hset.
Qed.

Lemma committedInfo_one_per_name (storeMap : gmap StoreKey S)
    (visited : list (StoreKey * S)) :
  distinctNames storeMap → visited ≡ₚ map_to_list storeMap →
  ∀ a b, a ∈ omap committedInfo visited → b ∈ omap committedInfo visited →
         Name a = Name b → a = b.
Proof.
  intros Hdist Hperm a b
    ([k1 s1] & Hin1 & Ha)%list_elem_of_omap ([k2 s2] & Hin2 & Hb)%list_elem_of_omap.
  rewrite Hperm in Hin1, Hin2.
  apply elem_of_map_to_list in Hin1, Hin2.
  unfold committedInfo in Ha, Hb. cbn in Ha, Hb.
  destruct (IsZero (storeCommit s1).1); [done|].
  destruct (IsZero (storeCommit s2).1); [done|].
  injection Ha as <-. injection Hb as <-. cbn. intros Hname.
  assert (k1 = k2) as -> by (apply Hdist; eauto).
  rewrite Hin1 in Hin2. by injection Hin2 as ->.
Qed.

(** C2. The root hash computed at commit depends only on the set of
    (name, commit id) pairs collected: whatever the order in which the
    store map is traversed, the sub-stores end in the same state, the
    entries collected are the same up to their order, and the hash is the
    same; and any commit info whose [StoreInfos] hold the same set of
    entries, in any order, has that hash too.  The keys of the store map
    carry distinct names. *)
Theorem root_hash_is_independent_of_order
    (storeMap : gmap StoreKey S) (visited1 visited2 : list (StoreKey * S))
    (version1 version2 version3 : Z) (sis : list storeInfo) :
  distinctNames storeMap →
  visited1 ≡ₚ map_to_list storeMap →
  visited2 ≡ₚ map_to_list storeMap →
  (∀ si, si ∈ sis ↔ si ∈ StoreInfos (commitStores version1 visited1 storeMap).1) →
  (commitStores version1 visited1 storeMap).2
    = (commitStores version2 visited2 storeMap).2
  ∧ StoreInfos (commitStores version1 visited1 storeMap).1
      ≡ₚ StoreInfos (commitStores version2 visited2 storeMap).1
  ∧ commitInfoHash (commitStores version1 visited1 storeMap).1
      = commitInfoHash (commitStores version2 visited2 storeMap).1
  ∧ commitInfoHash (mkCommitInfo version3 sis)
      = commitInfoHash (commitStores version1 visited1 storeMap).1.
Proof.
  intros Hdist H1 H2 Hsis.
  rewrite (commitStores_result _ _ _ H1) in Hsis |- *.
  rewrite (commitStores_result _ _ _ H2). cbn in Hsis |- *.
  assert (Hperm : omap committedInfo visited1 ≡ₚ omap committedInfo visited2).
  { by rewrite H1, H2. }
  split_and!; [done|done|..].
  - apply commitInfoHash_same_entries; cbn.
    + intros si. by rewrite Hperm.
    + by apply (committedInfo_one_per_name storeMap visited1).
  - apply commitInfoHash_same_entries; cbn.
    + done.
    + intros a b Ha%Hsis Hb%Hsis.
      by apply (committedInfo_one_per_name storeMap visited1).
Qed.

End CommitFacts.

(** ** The root multi-store: loading *)

Section LoadFacts.
Import RootMulti.
Context {T S : Type} `{!CommitKVStore T S} `{!Externals}.

Lemma nameToKeyVisiting_known (visited : list StoreKey) (name : string) (key : StoreKey) :
  nameToKeyVisiting visited name = Done key → key ∈ visited ∧ keyName key = name.
Proof.
  unfold nameToKeyVisiting.
  destruct (List.find _ visited) as [k|] eqn:Hfind; [|done].
  intros [= ->]. apply find_some in Hfind as [Hin Hname].
  split; [by apply list_elem_of_In|]. by apply bool_decide_eq_true in Hname.
Qed.

Lemma nameToKeyVisiting_unknown (visited : list StoreKey) (name : string) :
  (∀ key, key ∈ visited → keyName key ≠ name) →
  nameToKeyVisiting visited name = Panic ("Unknown name " +:+ name).
Proof.
  intros Hnone. unfold nameToKeyVisiting.
  destruct (List.find _ visited) as [k|] eqn:Hfind; [|done].
  apply find_some in Hfind as [Hin Hname].
  apply bool_decide_eq_true in Hname. apply list_elem_of_In in Hin.
  by destruct (Hnone k Hin).
Qed.

Lemma collectInfos_unknown (visited : list StoreKey) (sis : list storeInfo)
    (infos : gmap StoreKey storeInfo) :
  (∃ si, si ∈ sis ∧ ∀ key, key ∈ visited → keyName key ≠ Name si) →
  ∃ si, si ∈ sis ∧ (∀ key, key ∈ visited → keyName key ≠ Name si)
        ∧ collectInfos visited sis infos = Panic ("Unknown name " +:+ Name si).
Proof.
  revert infos. induction sis as [|si0 sis IH]; intros infos (si & Hin & Hunk).
  { by apply elem_of_nil in Hin. }
  cbn [collectInfos].
  destruct (nameToKeyVisiting visited (Name si0)) as [key|msg] eqn:Hkey.
  - apply nameToKeyVisiting_known in Hkey as [Hkin Hkname].
    apply elem_of_cons in Hin as [->|Hin].
    { by destruct (Hunk key Hkin). }
    destruct (IH (<[key := si0]> infos)) as (si' & Hin' & Hunk' & Hpanic); [eauto|].
    exists si'. split_and!; [by apply elem_of_cons; right|done|].
    cbn. exact Hpanic.
  - exists si0. split; [by apply elem_of_cons; left|].
    assert (Hunk0 : ∀ key, key ∈ visited → keyName key ≠ Name si0).
    { intros key Hkin. unfold nameToKeyVisiting in Hkey.
      destruct (List.find _ visited) as [k|] eqn:Hfind; [done|].
      apply list_elem_of_In in Hkin.
      pose proof (find_none _ _ Hfind key Hkin) as Hf.
      by apply bool_decide_eq_false in Hf. }
    split; [done|].
    rewrite (nameToKeyVisiting_unknown _ _ Hunk0) in Hkey. by injection Hkey as <-.
Qed.

(** C9. Loading a non-zero version whose persisted commit info names a
    store that is not among the mounted keys panics with "Unknown name"
    followed by such a name: no error is returned and no zero commit id is
    substituted. *)
Theorem load_panics_on_unmounted_store_name
    (visited : list (StoreKey * storeParams)) (ver : Z) (rs : Store)
    (cInfo : commitInfo) :
  visited ≡ₚ map_to_list (storesParams rs) →
  ver ≠ 0 →
  getCommitInfo (db rs) ver = Ok cInfo →
  (∃ si, si ∈ StoreInfos cInfo
         ∧ ∀ key, is_Some (storesParams rs !! key) → keyName key ≠ Name si) →
  ∃ si, si ∈ StoreInfos cInfo
        ∧ (∀ key, is_Some (storesParams rs !! key) → keyName key ≠ Name si)
        ∧ LoadMultiStoreVersionVisiting visited ver rs
          = Panic ("Unknown name " +:+ Name si).
Proof.
  intros Hperm Hver Hinfo (si & Hin & Hunk).
  assert (Hmounted : ∀ key, key ∈ visited.*1 ↔ is_Some (storesParams rs !! key)).
  { intros key. rewrite Hperm, list_elem_of_fmap. split.
    - intros ([k p] & -> & Hkp). apply elem_of_map_to_list in Hkp. by eexists.
    - intros [p Hp]. exists (key, p). split; [done|].
      by apply elem_of_map_to_list. }
  destruct (collectInfos_unknown visited.*1 (StoreInfos cInfo) ∅)
    as (si' & Hin' & Hunk' & Hpanic).
  { exists si. split; [done|]. intros key Hk. by apply Hunk, Hmounted. }
  exists si'. split_and!; [done| |].
  { intros key Hk. by apply Hunk', Hmounted. }
  unfold LoadMultiStoreVersionVisiting, loadInfos.
  rewrite decide_True by done. rewrite Hinfo. by rewrite Hpanic.
Qed.

Lemma loadStores_skip (rs : Store) (infos : gmap StoreKey storeInfo)
    (pre rest : list (StoreKey * storeParams)) (acc : gmap StoreKey S) :
  (∀ kp, kp ∈ pre →
     ∃ st, loadCommitStoreFromParams rs kp.1 (expectedID infos kp.1) kp.2
           = Done (st, None)) →
  ∃ acc', loadStores rs infos (pre ++ rest) acc = loadStores rs infos rest acc'.
Proof.
  revert acc. induction pre as [|[k p] pre IH]; intros acc Hpre; [by eexists|].
  destruct (Hpre (k, p)) as [st Hst]; [by apply elem_of_cons; left|].
  cbn in Hst. cbn [app loadStores]. rewrite Hst. cbn.
  apply IH. intros kp Hkp. apply Hpre. by apply elem_of_cons; right.
Qed.

Lemma load_error_keeps_state (visited : list (StoreKey * storeParams))
    (ver : Z) (rs rs' : Store) (err : string) :
  LoadMultiStoreVersionVisiting visited ver rs = Done (Some err, rs') → rs' = rs.
Proof.
  unfold LoadMultiStoreVersionVisiting.
  destruct (loadInfos _ ver rs) as [[[lastID infos]|e]|msg]; cbn; [|congruence|done].
  destruct (loadStores rs infos visited ∅) as [[e|newStores]|msg]; cbn;
    congruence.
Qed.

(** C6. When the load of a sub-store fails, the sub-stores visited before
    it having loaded, [LoadMultiStoreVersion] returns the error of that
    sub-store behind the fixed text "failed to load Store: " (the name of
    the sub-store is not part of the message), and the root is left as it
    was: same sub-stores, same last commit id. *)
Theorem load_failure_is_wrapped_and_keeps_the_root
    (visited pre post : list (StoreKey * storeParams)) (key : StoreKey)
    (params : storeParams) (ver : Z) (rs : Store) (lastID : CommitID)
    (infos : gmap StoreKey storeInfo) (st : S) (e : string) :
  loadInfos visited.*1 ver rs = Done (Ok (lastID, infos)) →
  visited = pre ++ (key, params) :: post →
  (∀ kp, kp ∈ pre →
     ∃ st', loadCommitStoreFromParams rs kp.1 (expectedID infos kp.1) kp.2
            = Done (st', None)) →
  loadCommitStoreFromParams rs key (expectedID infos key) params
    = Done (st, Some e) →
  ∃ rs', LoadMultiStoreVersionVisiting visited ver rs
         = Done (Some ("failed to load Store: " +:+ e), rs')
         ∧ stores rs' = stores rs
         ∧ LastCommitID rs' = LastCommitID rs
         ∧ rs' = rs.
Proof.
  intros Hinfos -> Hpre Hfail. exists rs. split; [|done].
  unfold LoadMultiStoreVersionVisiting. rewrite Hinfos. cbn.
  destruct (loadStores_skip rs infos pre ((key, params) :: post) ∅ Hpre)
    as [acc' ->].
  cbn [loadStores]. rewrite Hfail. done.
Qed.

(** C8. [loadCommitStoreFromParams] sets the pruning strategy on the
    sub-store it instantiated exactly when [LoadKVStoreVersion] returned an
    error; on a successful load it returns the sub-store as
    [LoadKVStoreVersion] left it.  [SetPruning] on the root is what sets
    the strategy on every loaded sub-store. *)
Theorem pruning_is_set_only_when_the_load_fails
    (rs : Store) (key : StoreKey) (id : CommitID) (params : storeParams)
    (typ : T) (p : PruningStrategy) :
  spTyp params = Some typ →
  loadCommitStoreFromParams rs key id params
  = Done (match (storeLoadKVStoreVersion (storeDB rs params) id (zeroStore typ)).1 with
          | Some _ =>
              storeSetPruning (pruning rs)
                (storeLoadKVStoreVersion (storeDB rs params) id (zeroStore typ)).2
          | None => (storeLoadKVStoreVersion (storeDB rs params) id (zeroStore typ)).2
          end,
          (storeLoadKVStoreVersion (storeDB rs params) id (zeroStore typ)).1)
  ∧ stores (SetPruning p rs) = storeSetPruning p <$> stores rs
  ∧ pruning (SetPruning p rs) = p.
Proof.
  intros Htyp. split; [|done].
  unfold loadCommitStoreFromParams. rewrite Htyp.
  destruct (storeLoadKVStoreVersion _ id (zeroStore typ)) as [[e|] st]; done.
Qed.

(** After a load that succeeded, each loaded sub-store is as its
    [LoadKVStoreVersion] left it. *)
Lemma loadStores_loaded (rs : Store) (infos : gmap StoreKey storeInfo)
    (visited : list (StoreKey * storeParams)) (acc newStores : gmap StoreKey S) :
  NoDup visited.*1 →
  loadStores rs infos visited acc = Done (inr newStores) →
  (∀ key params, (key, params) ∈ visited →
     ∃ typ, spTyp params = Some typ
            ∧ storeLoadKVStoreVersion (storeDB rs params) (expectedID infos key)
                (zeroStore typ)
              = (None, default (zeroStore typ) (newStores !! key))
            ∧ is_Some (newStores !! key))
  ∧ (∀ key, key ∉ visited.*1 → newStores !! key = acc !! key).
Proof.
  revert acc. induction visited as [|[k p] visited IH]; intros acc Hnd Hload.
  { injection Hload as <-. split; [|done]. by intros ?? ?%elem_of_nil. }
  rewrite fmap_cons in Hnd. apply NoDup_cons in Hnd as [Hk Hnd].
  cbn [loadStores] in Hload. unfold loadCommitStoreFromParams in Hload.
  destruct (spTyp p) as [typ|] eqn:Htyp; [|done].
  destruct (storeLoadKVStoreVersion _ _ (zeroStore typ)) as [[e|] st] eqn:Hst;
    cbn in Hload; [done|].
  destruct (IH _ Hnd Hload) as [IH1 IH2]. split.
  - intros key params [[= -> ->]|Hin]%elem_of_cons; [|by apply IH1].
    exists typ. rewrite (IH2 k Hk), lookup_insert_eq. cbn. eauto.
  - intros key Hkey. rewrite fmap_cons in Hkey.
    apply not_elem_of_cons in Hkey as [Hne Hkey].
    rewrite (IH2 key Hkey). by rewrite lookup_insert_ne.
Qed.

End LoadFacts.

(** ** The root multi-store: query routing *)

Section QueryFacts.
Import RootMulti.
Context {T S : Type} `{!CommitKVStore T S} `{!Externals}.

Lemma substring_all (s : string) : String.substring 0 (String.length s) s = s.
Proof. induction s as [|c s IH]; [done|]. cbn. by rewrite IH. Qed.

Lemma string_app_empty_r (s : string) : s +:+ EmptyString = s.
Proof.
  induction s as [|c s IH]; [done|].
  change (String c s +:+ EmptyString) with (String c (s +:+ EmptyString)). by rewrite IH.
Qed.

Lemma splitSlash2_noSlash (name : string) :
  noSlash name = true → splitSlash2 name = (name, None).
Proof.
  induction name as [|c name IH]; [done|]. cbn.
  destruct (decide (c = "/"%char)); [done|]. intros Hn. by rewrite IH.
Qed.

Lemma splitSlash2_at_slash (name rest : string) :
  noSlash name = true →
  splitSlash2 (name +:+ "/" +:+ rest) = (name, Some rest).
Proof.
  induction name as [|c name IH]; [done|].
  change (String c name +:+ "/" +:+ rest) with (String c (name +:+ "/" +:+ rest)).
  cbn [noSlash splitSlash2].
  destruct (decide (c = "/"%char)); [done|]. intros Hn. by rewrite IH.
Qed.

Lemma splitSlash2_shape (s : string) :
  noSlash (splitSlash2 s).1 = true
  ∧ s = (splitSlash2 s).1
        +:+ match (splitSlash2 s).2 with
            | Some rest => "/" +:+ rest
            | None => EmptyString
            end.
Proof.
  induction s as [|c s [IH1 IH2]]; [done|]. cbn.
  destruct (decide (c = "/"%char)) as [->|Hc]; [done|].
  destruct (splitSlash2 s) as [hd tl]. cbn in *.
  rewrite decide_False by done. split; [done|].
  rewrite IH2 at 1. reflexivity.
Qed.

(** Every path has one of the three shapes. *)
Lemma pathShape_total (path : string) : ∃ shape, pathShape path shape.
Proof.
  destruct (hasSlashPrefix path) eqn:Hp.
  2:{ exists None. by constructor. }
  destruct path as [|c path]; [done|]. cbn in Hp.
  destruct (decide (c = "/"%char)) as [->|]; [|done].
  destruct (splitSlash2_shape path) as [Hno Heq].
  destruct (splitSlash2 path) as [name [rest|]]; cbn in Hno, Heq; rewrite Heq.
  - eexists. by apply shape_sub.
  - eexists. rewrite string_app_empty_r. by apply shape_store.
Qed.

Lemma parsePath_shape (path : string) (shape : option (string * string)) :
  pathShape path shape →
  parsePath path
  = match shape with
    | None => (EmptyString, EmptyString,
               Some (ErrUnknownRequest ("invalid path: " +:+ path)))
    | Some (name, subpath) => (name, subpath, None)
    end.
Proof.
  destruct 1 as [path Hp|name Hn|name rest Hn]; unfold parsePath.
  - by rewrite Hp.
  - change ("/" +:+ name) with (String "/" name).
    cbn [hasSlashPrefix String.length String.substring].
    rewrite decide_True by done.
    replace (Datatypes.S (String.length name) - 1)%nat with (String.length name) by lia.
    rewrite substring_all.
    by rewrite splitSlash2_noSlash.
  - change ("/" +:+ name +:+ "/" +:+ rest)
      with (String "/" (name +:+ "/" +:+ rest)).
    cbn [hasSlashPrefix String.length String.substring].
    rewrite decide_True by done.
    replace (Datatypes.S (String.length (name +:+ "/" +:+ rest)) - 1)%nat
      with (String.length (name +:+ "/" +:+ rest)) by lia.
    rewrite substring_all.
    by rewrite splitSlash2_at_slash.
Qed.

(** C7. [Query] always returns a response.  For a path without a leading
    slash it is the "invalid path" error response.  For a path
    [/<name>] or [/<name>/<rest>] it is the "no such store" error response
    when the name index has no key for [name], and also when it has one
    but no store is loaded under that key; it is the "doesn't support
    queries" error response when the store loaded for [name] is not
    queryable.  Otherwise the store is asked the request whose path is the
    sub-path (empty, or [/<rest>]) and whose data, height and proof flag
    are those of [req]; its answer is returned as it is, unless a proof
    is asked for and required for the sub-path: then the proof of the
    answer is replaced by the multi-store proof built from the commit
    info at the height of the answer, or the internal error response is
    returned when that commit info cannot be read. *)
Theorem Query_routes_or_reports_an_error
    (req : RequestQuery) (rs : Store) (shape : option (string * string)) :
  pathShape (Path req) shape →
  Query req rs
  = match shape with
    | None => QueryResult (ErrUnknownRequest ("invalid path: " +:+ Path req))
    | Some (name, subpath) =>
        match keysByName rs !! name with
        | None => QueryResult (ErrUnknownRequest ("no such store: " +:+ name))
        | Some key =>
            match stores rs !! key with
            | None => QueryResult (ErrUnknownRequest ("no such store: " +:+ name))
            | Some store =>
                match storeQueryable store with
                | None =>
                    QueryResult (ErrUnknownRequest
                      ("store " +:+ name +:+ " doesn't support queries"))
                | Some query =>
                    let res :=
                      query (mkRequestQuery (Data req) subpath (Height req) (Prove req)) in
                    if Prove req && RequireProof subpath then
                      match getCommitInfo (db rs) (resHeight res) with
                      | Err errMsg => QueryResult (ErrInternal errMsg)
                      | Ok cInfo =>
                          mkResponseQuery (resCode res) (resLog res) (resValue res)
                            (buildMultiStoreProof (resProof res) name (StoreInfos cInfo))
                            (resHeight res)
                      end
                    else res
                end
            end
        end
    end.
Proof.
  intros Hshape. unfold Query. rewrite (parsePath_shape _ _ Hshape).
  destruct shape as [[name subpath]|]; [|done].
  unfold getStoreByName.
  destruct (keysByName rs !! name) as [key|]; [|done].
  destruct (stores rs !! key) as [store|]; [|done].
  destruct (storeQueryable store) as [query|]; [|done].
  unfold withPath, withProof. cbn.
  by destruct (Prove req), (RequireProof subpath).
Qed.

End QueryFacts.

(** ** The root multi-store: mounting *)

Section MountFacts.
Import RootMulti.
Context {T S : Type} `{!CommitKVStore T S} `{!Externals}.
Local Abbreviation Root := (Store (T := T) (S := S)).

Lemma NewCommitMultiStore_nameIndexed (d : DB) :
  nameIndexed (T := T) (S := S) (NewCommitMultiStore d).
Proof. intros key [p Hp]. cbn in Hp. by rewrite lookup_empty in Hp. Qed.

(** A mount that is accepted keeps the name index in step with the mounted
    keys; a key whose name is taken is refused. *)
Lemma MountStoreWithDB_nameIndexed (key : option StoreKey) (mdb : option DB)
    (rs rs' : Root) :
  nameIndexed rs → MountStoreWithDB key mdb rs = Done rs' → nameIndexed rs'.
Proof.
  intros Hidx. unfold MountStoreWithDB. destruct key as [key|]; [|done].
  destruct (decide (is_Some (storesParams rs !! key))) as [|Hfresh]; [done|].
  destruct (decide (is_Some (keysByName rs !! keyName key))) as [|Hname]; [done|].
  intros [= <-] k. cbn.
  destruct (decide (key = k)) as [->|Hne].
  { intros _. by rewrite lookup_insert_eq. }
  rewrite lookup_insert_ne by done. intros Hk.
  pose proof (Hidx k Hk) as Hkn.
  rewrite lookup_insert_ne; [done|].
  intros Heq. rewrite Heq in Hname. apply Hname. by rewrite Hkn.
Qed.

Lemma nameIndexed_distinctNames (rs : Root) :
  nameIndexed rs → distinctNames (storesParams rs).
Proof.
  intros Hidx k1 k2 H1 H2 Hname.
  pose proof (Hidx k1 H1) as E1. pose proof (Hidx k2 H2) as E2.
  rewrite Hname in E1. congruence.
Qed.

Lemma distinctNames_weaken {V W : Type} (m1 : gmap StoreKey V)
    (m2 : gmap StoreKey W) :
  (∀ k, is_Some (m1 !! k) → is_Some (m2 !! k)) →
  distinctNames m2 → distinctNames m1.
Proof. intros Hsub Hd k1 k2 H1 H2. apply Hd; by apply Hsub. Qed.

(** The sub-stores swapped in by a load carry distinct names, and so do
    those left by a commit. *)
Lemma load_distinctNames (ver : Z) (rs rs' : Root) :
  nameIndexed rs →
  LoadMultiStoreVersion ver rs = Done (None, rs') →
  distinctNames (stores rs') ∧ nameIndexed rs'.
Proof.
  intros Hidx. unfold LoadMultiStoreVersion, LoadMultiStoreVersionVisiting.
  destruct (loadInfos _ ver rs) as [[[lastID infos]|e]|msg]; cbn; [|done..].
  destruct (loadStores rs infos _ ∅) as [[e|newStores]|msg] eqn:Hload; cbn;
    [done| |done].
  intros [= <-]. cbn. split; [|done].
  apply (distinctNames_weaken _ (storesParams rs));
    [|by apply nameIndexed_distinctNames].
  intros k Hk.
  destruct (loadStores_loaded rs infos _ ∅ newStores
              (NoDup_fst_map_to_list _) Hload) as [_ Hrest].
  destruct (decide (k ∈ (map_to_list (storesParams rs)).*1)) as [Hin|Hout].
  - apply list_elem_of_fmap in Hin as ([k' p] & -> & Hin).
    apply elem_of_map_to_list in Hin. by eexists.
  - rewrite (Hrest k Hout), lookup_empty in Hk. by destruct Hk.
Qed.

Lemma commit_distinctNames (visited : list (StoreKey * S)) (rs rs' : Root)
    (cid : CommitID) :
  visited ≡ₚ map_to_list (stores rs) →
  CommitVisiting visited rs = Done (cid, rs') →
  distinctNames (stores rs) → distinctNames (stores rs').
Proof.
  intros Hperm. unfold CommitVisiting.
  rewrite (commitStores_result _ _ _ Hperm).
  unfold setCommitInfo. destruct (marshalCommitInfo _) as [bz|e]; cbn; [|done].
  intros [= _ <-]. cbn. apply distinctNames_weaken.
  intros k. rewrite lookup_fmap. by intros [st [st' [-> _]]%fmap_Some].
Qed.

End MountFacts.

(** ** The bank client helper *)

Section BankFacts.
Import BankClient.

(** C10. [CreateMsg] returns a send message with exactly one input, which
    carries the sender and the coins, and exactly one output, which
    carries the recipient and the same coins; so for every denomination
    the inputs and the outputs total the same amount. *)
Theorem CreateMsg_has_one_input_and_one_output
    (from to : AccAddress) (coins : Coins) :
  Inputs (CreateMsg from to coins) = [mkInput from coins]
  ∧ Outputs (CreateMsg from to coins) = [mkOutput to coins]
  ∧ length (Inputs (CreateMsg from to coins)) = 1%nat
  ∧ length (Outputs (CreateMsg from to coins)) = 1%nat
  ∧ ∀ denom, totalIn denom (CreateMsg from to coins)
             = totalOut denom (CreateMsg from to coins).
Proof. by split_and!. Qed.

End BankFacts.

(** ** The properties at work *)

Import RootMulti Fixtures.

Lemma Commit_versions_are_consecutive_witness :
  Version <$> [commit1.1; commit2.1]
    = seqZ (Version (LastCommitID loadedRoot) + 1)
           (Z.of_nat (length [commit1.1; commit2.1]))
  ∧ LastCommitID commit2.2
    = List.last [commit1.1; commit2.1] (LastCommitID loadedRoot)
  ∧ ∀ visited, ∃ cid rs'',
      CommitVisiting visited commit2.2 = Done (cid, rs'')
      ∧ Version cid = int64_add (Version (LastCommitID commit2.2)) 1
      ∧ LastCommitID rs'' = cid.
Proof.
  apply (Commit_versions_are_consecutive loadedRoot commit2.2
           [commit1.1; commit2.1]).
  - intros ci. eexists. reflexivity.
  - apply (commitRun_cons _ _ commit1.2).
    { exists (map_to_list (stores loadedRoot)). split; [reflexivity|].
      vm_compute. reflexivity. }
    apply (commitRun_cons _ _ commit2.2).
    { exists (map_to_list (stores commit1.2)). split; [reflexivity|].
      vm_compute. reflexivity. }
    apply commitRun_nil.
  - vm_compute. discriminate.
  - vm_compute. discriminate.
Defined.

(** At the upper end of [int64] the version wraps around. *)
Example Commit_at_int64_max :
  Version (returned (zeroCommitID, loadedRoot)
             (Commit (mkRootStore ∅ (mkCommitID int64_max None) 0%N ∅ ∅ ∅
                        : Store (T := kind) (S := recStore)))).1
  = int64_min.
Proof. vm_compute. reflexivity. Qed.

(** Two commits of a fresh root return versions 1 and 2. *)
Example two_commits_versions :
  Version <$> [commit1.1; commit2.1] = [1; 2]
  ∧ LastCommitID commit2.2 = commit2.1.
Proof. vm_compute. done. Qed.

Lemma loadedRoot_distinctNames : distinctNames (stores loadedRoot).
Proof.
  intros k1 k2 H1 H2. cbn in H1, H2.
  rewrite !lookup_insert_is_Some, lookup_empty in H1.
  rewrite !lookup_insert_is_Some, lookup_empty in H2.
  intros Hname.
  destruct H1 as [<-|[_ [<-|[_ [<-|[_ []%is_Some_None]]]]]];
    destruct H2 as [<-|[_ [<-|[_ [<-|[_ []%is_Some_None]]]]]];
    (reflexivity || discriminate Hname).
Defined.

Lemma root_hash_is_independent_of_order_witness :
  (commitStores 1 (map_to_list (stores loadedRoot)) (stores loadedRoot)).2
    = (commitStores 1 (reverse (map_to_list (stores loadedRoot))) (stores loadedRoot)).2
  ∧ StoreInfos (commitStores 1 (map_to_list (stores loadedRoot)) (stores loadedRoot)).1
      ≡ₚ StoreInfos (commitStores 1 (reverse (map_to_list (stores loadedRoot)))
                       (stores loadedRoot)).1
  ∧ commitInfoHash (commitStores 1 (map_to_list (stores loadedRoot)) (stores loadedRoot)).1
      = commitInfoHash (commitStores 1 (reverse (map_to_list (stores loadedRoot)))
                          (stores loadedRoot)).1
  ∧ commitInfoHash
      (mkCommitInfo 1
         (reverse (StoreInfos (commitStores 1 (map_to_list (stores loadedRoot))
                                 (stores loadedRoot)).1)))
      = commitInfoHash (commitStores 1 (map_to_list (stores loadedRoot))
                          (stores loadedRoot)).1.
Proof.
  apply (root_hash_is_independent_of_order (stores loadedRoot)
           (map_to_list (stores loadedRoot))
           (reverse (map_to_list (stores loadedRoot))) 1 1 1).
  - exact loadedRoot_distinctNames.
  - reflexivity.
  - apply reverse_Permutation.
  - intros si. apply elem_of_reverse.
Defined.

(** The entries collected in the two traversal orders differ as lists and
    hash alike. *)
Example commitStores_two_orders :
  StoreInfos (commitStores 1 (map_to_list (stores loadedRoot)) (stores loadedRoot)).1
    ≠ StoreInfos (commitStores 1 (reverse (map_to_list (stores loadedRoot)))
                    (stores loadedRoot)).1
  ∧ commitInfoHash (commitStores 1 (map_to_list (stores loadedRoot)) (stores loadedRoot)).1
    = Some "acc=#1:h1;bank=#5:h5"%string.
Proof. vm_compute. split; [discriminate|reflexivity]. Qed.

(** Were two entries to carry one name, the later one would win and the
    order would show in the hash. *)
Example hashMap_later_entry_wins :
  let a := mkStoreInfo "acc" (mkStoreCore (mkCommitID 1 (Some "x"%string))) in
  let b := mkStoreInfo "acc" (mkStoreCore (mkCommitID 1 (Some "y"%string))) in
  commitInfoHash (mkCommitInfo 1 [a; b]) ≠ commitInfoHash (mkCommitInfo 1 [b; a]).
Proof. vm_compute. discriminate. Qed.

Lemma load_failure_is_wrapped_and_keeps_the_root_witness :
  ∃ rs', LoadMultiStoreVersionVisiting [(accKey, accParams); (badKey, badParams)] 0 withFailing
         = Done (Some ("failed to load Store: " +:+ "corrupt tree"), rs')
         ∧ stores rs' = stores withFailing
         ∧ LastCommitID rs' = LastCommitID withFailing
         ∧ rs' = withFailing.
Proof.
  apply (load_failure_is_wrapped_and_keeps_the_root
           [(accKey, accParams); (badKey, badParams)]
           [(accKey, accParams)] [] badKey badParams 0 withFailing
           zeroCommitID ∅
           (mkRecStore Failing 0 [("s/k:bad/"%string, zeroCommitID)] [3%N])
           "corrupt tree").
  - reflexivity.
  - reflexivity.
  - intros kp ->%list_elem_of_singleton. eexists. vm_compute. reflexivity.
  - vm_compute. reflexivity.
Defined.

(** The error returned for the failing sub-store "bad" does not mention
    its name, and the root is unchanged. *)
Lemma load_error_does_not_name_the_store :
  keyName badKey = "bad"%string
  ∧ LoadMultiStoreVersion 0 withFailing
    = Done (Some "failed to load Store: corrupt tree"%string, withFailing)
  ∧ contains "failed to load Store: corrupt tree" "bad" = false.
Proof. vm_compute. done. Qed.

Lemma pruning_is_set_only_when_the_load_fails_witness :
  loadCommitStoreFromParams withFailing badKey zeroCommitID badParams
  = Done (match (storeLoadKVStoreVersion (storeDB withFailing badParams)
                   zeroCommitID (zeroStore Failing)).1 with
          | Some _ =>
              storeSetPruning (pruning withFailing)
                (storeLoadKVStoreVersion (storeDB withFailing badParams)
                   zeroCommitID (zeroStore Failing)).2
          | None => (storeLoadKVStoreVersion (storeDB withFailing badParams)
                       zeroCommitID (zeroStore Failing)).2
          end,
          (storeLoadKVStoreVersion (storeDB withFailing badParams)
             zeroCommitID (zeroStore Failing)).1)
  ∧ stores (SetPruning 2%N withFailing) = storeSetPruning 2%N <$> stores withFailing
  ∧ pruning (SetPruning 2%N withFailing) = 2%N.
Proof.
  apply (pruning_is_set_only_when_the_load_fails withFailing badKey
           zeroCommitID badParams Failing 2%N).
  reflexivity.
Defined.

(** The recording sub-stores show the calls: the store whose load failed
    had [SetPruning] called with the root's strategy, the store that
    loaded had not; [SetPruning] on the root reaches every loaded store. *)
Example pruning_calls_recorded :
  rPruned <$> (fst <$> loadCommitStoreFromParams withFailing badKey zeroCommitID badParams)
    = Done [3%N]
  ∧ rPruned <$> (fst <$> loadCommitStoreFromParams withFailing accKey zeroCommitID accParams)
    = Done []
  ∧ (rPruned <$> stores (SetPruning 2%N loadedRoot)) !! accKey = Some [2%N].
Proof. vm_compute. done. Qed.

Lemma Query_routes_or_reports_an_error_witness :
  Query (mkRequestQuery (Some "k"%string) "/acc/key" 0 false) loadedRoot
  = match Some ("acc"%string, "/key"%string) with
    | None =>
        QueryResult (ErrUnknownRequest
          ("invalid path: " +:+ Path (mkRequestQuery (Some "k"%string) "/acc/key" 0 false)))
    | Some (name, subpath) =>
        match keysByName loadedRoot !! name with
        | None => QueryResult (ErrUnknownRequest ("no such store: " +:+ name))
        | Some key =>
            match stores loadedRoot !! key with
            | None => QueryResult (ErrUnknownRequest ("no such store: " +:+ name))
            | Some store =>
                match storeQueryable store with
                | None =>
                    QueryResult (ErrUnknownRequest
                      ("store " +:+ name +:+ " doesn't support queries"))
                | Some query =>
                    let res :=
                      query (mkRequestQuery
                               (Data (mkRequestQuery (Some "k"%string) "/acc/key" 0 false))
                               subpath
                               (Height (mkRequestQuery (Some "k"%string) "/acc/key" 0 false))
                               (Prove (mkRequestQuery (Some "k"%string) "/acc/key" 0 false))) in
                    if Prove (mkRequestQuery (Some "k"%string) "/acc/key" 0 false)
                       && RequireProof subpath then
                      match getCommitInfo (db loadedRoot) (resHeight res) with
                      | Err errMsg => QueryResult (ErrInternal errMsg)
                      | Ok cInfo =>
                          mkResponseQuery (resCode res) (resLog res) (resValue res)
                            (buildMultiStoreProof (resProof res) name (StoreInfos cInfo))
                            (resHeight res)
                      end
                    else res
                end
            end
        end
    end.
Proof.
  refine (Query_routes_or_reports_an_error
            (mkRequestQuery (Some "k"%string) "/acc/key" 0 false) loadedRoot
            (Some ("acc"%string, "/key"%string)) _).
  apply (shape_sub "acc" "key"). reflexivity.
Defined.

(** The key "acc" is mounted and indexed by its name, but no store is
    loaded for it: a query routed to "acc" gets the "no such store" error
    response, which is not the "doesn't support queries" one, and no
    store is asked. *)
Lemma Query_of_a_mounted_store_that_is_not_loaded :
  is_Some (storesParams mountedRoot !! accKey)
  ∧ keyName accKey = "acc"%string
  ∧ keysByName mountedRoot !! "acc"%string = Some accKey
  ∧ stores mountedRoot = ∅
  ∧ Query (mkRequestQuery (Some "k"%string) "/acc/key" 0 false) mountedRoot
    = QueryResult (ErrUnknownRequest "no such store: acc")
  ∧ Query (mkRequestQuery (Some "k"%string) "/acc/key" 0 false) mountedRoot
    ≠ QueryResult (ErrUnknownRequest "store acc doesn't support queries").
Proof.
  split_and!; [by eexists|done|done|done|done|].
  vm_compute. discriminate.
Qed.

(** The routing scenarios: a path without a leading slash, an unmounted
    store, a store that is not queryable, and a query that is delegated
    with the sub-path. *)
Example Query_scenarios :
  Query (mkRequestQuery None "acc/key" 0 false) loadedRoot
    = mkResponseQuery 6 "invalid path: acc/key" None None 0
  ∧ Query (mkRequestQuery None "/zzz/key" 0 false) loadedRoot
    = mkResponseQuery 6 "no such store: zzz" None None 0
  ∧ Query (mkRequestQuery None "/tmp/key" 0 false) loadedRoot
    = mkResponseQuery 6 "store tmp doesn't support queries" None None 0
  ∧ Query (mkRequestQuery (Some "k"%string) "/acc/key" 0 false) loadedRoot
    = mkResponseQuery 0 "/key" (Some "k"%string) (Some "subproof"%string) 0
  ∧ Query (mkRequestQuery (Some "k"%string) "/bank" 0 false) loadedRoot
    = mkResponseQuery 0 EmptyString (Some "k"%string) (Some "subproof"%string) 4.
Proof. vm_compute. done. Qed.

Lemma load_panics_on_unmounted_store_name_witness :
  ∃ si, si ∈ StoreInfos savedInfo
        ∧ (∀ key, is_Some (storesParams staleRoot !! key) → keyName key ≠ Name si)
        ∧ LoadMultiStoreVersionVisiting (map_to_list (storesParams staleRoot)) 1 staleRoot
          = Panic ("Unknown name " +:+ Name si).
Proof.
  apply (load_panics_on_unmounted_store_name
           (map_to_list (storesParams staleRoot)) 1 staleRoot savedInfo).
  - reflexivity.
  - discriminate.
  - vm_compute. reflexivity.
  - exists (mkStoreInfo "gone" (mkStoreCore (mkCommitID 1 (Some "h1"%string)))).
    split.
    + apply elem_of_cons. right. apply elem_of_cons. by left.
    + intros key Hkey. cbn in Hkey.
      rewrite lookup_insert_is_Some, lookup_empty in Hkey.
      destruct Hkey as [<-|[_ []%is_Some_None]]. discriminate.
Defined.

(** Loading version 1 of the stale root panics on the name "gone". *)
Example load_staleRoot_panics :
  LoadMultiStoreVersion 1 staleRoot = Panic "Unknown name gone".
Proof. vm_compute. reflexivity. Qed.

(** * Further properties *)

(** ** The cache overlay: reads, writes and nesting *)

Section OverlayFacts.
Import Cache.
Context {P : Type} `{!KVStore P}.

(** X1. What [Get] returned it returns again, from the cache and without
    a change of state: a key that was cached is answered from its entry,
    and a key that was not is read from the parent once and kept as a
    clean entry, a nil answer included. *)
Theorem Get_is_answered_from_the_cache_afterwards
    (key : bytes) (ci ci' : Cache.Store P) (v : bytes) :
  Get key ci = Done (v, ci') →
  Get key ci' = Done (v, ci')
  ∧ (is_Some (cache ci !! string_of_bytes key) → ci' = ci)
  ∧ (cache ci !! string_of_bytes key = None →
       ∃ p', kvGet key (parent ci) = Done (v, p')
             ∧ ci' = mkStore (<[string_of_bytes key := mkCValue v false false]>
                                (cache ci)) p').
Proof.
  unfold Get. destruct key as [k|]; cbn; [|done].
  destruct (cache ci !! k) as [cv|] eqn:Hc; cbn.
  - intros [= <- <-]. rewrite Hc. split_and!; [done|done|done].
  - destruct (kvGet (Some k) (parent ci)) as [[v0 p']|msg]; cbn; [|done].
    intros [= <- <-]. unfold setCacheValue. cbn.
    rewrite lookup_insert_eq. split_and!; [done| |eauto].
    by intros [? ?].
Qed.

(** X2. After [Set] the key is present exactly when the value written is
    not nil, and after [Delete] the key reads as nil and is absent; both
    answers come from the overlay, whatever the parent holds, and neither
    [Set] nor [Delete] touches the parent. *)
Theorem Has_after_Set_and_after_Delete
    (k : string) (val : bytes) (ci : Cache.Store P) :
  (∃ ci', Set_ (Some k) val ci = Done ci'
          ∧ Has (Some k) ci' = Done (bool_decide (val ≠ None), ci')
          ∧ parent ci' = parent ci)
  ∧ (∃ ci', Delete (Some k) ci = Done ci'
            ∧ Get (Some k) ci' = Done (None, ci')
            ∧ Has (Some k) ci' = Done (false, ci')
            ∧ parent ci' = parent ci).
Proof.
  split; eexists; (split; [reflexivity|]); unfold Has, Get, setCacheValue; cbn;
    rewrite lookup_insert_eq; cbn; done.
Qed.

Lemma flushKeys_overlay (c : gmap string cValue) (keys : list string)
    (mid : Cache.Store P) :
  NoDup keys →
  ∃ mid', flushKeys c keys mid = Done mid'
          ∧ parent mid' = parent mid
          ∧ ∀ key, cache mid' !! key
                   = if decide (key ∈ keys)
                     then flushedEntry (default zeroCValue (c !! key)) (cache mid !! key)
                     else cache mid !! key.
Proof.
  revert mid. induction keys as [|k keys IH]; intros mid Hnd.
  { exists mid. split_and!; [done..|]. intros key.
    rewrite decide_False; [done|]. apply not_elem_of_nil. }
  apply NoDup_cons in Hnd as [Hk Hnd]. cbn [flushKeys].
  assert (∃ mid1, flushKey c k mid = Done mid1
                  ∧ parent mid1 = parent mid
                  ∧ ∀ key, cache mid1 !! key
                           = if decide (key = k)
                             then flushedEntry (default zeroCValue (c !! k)) (cache mid !! k)
                             else cache mid !! key)
    as (mid1 & -> & Hp1 & Hc1).
  { unfold flushKey, flushedEntry.
    destruct (deleted (default zeroCValue (c !! k))); cbn.
    - eexists. split_and!; [done..|]. intros key. cbn.
      destruct (decide (key = k)) as [->|Hne];
        [by rewrite lookup_insert_eq|by rewrite lookup_insert_ne].
    - destruct (value (default zeroCValue (c !! k))) as [v|]; cbn.
      + eexists. split_and!; [done..|]. intros key. cbn.
        destruct (decide (key = k)) as [->|Hne];
          [by rewrite lookup_insert_eq|by rewrite lookup_insert_ne].
      + exists mid. split_and!; [done..|]. intros key.
        by destruct (decide (key = k)) as [->|Hne]. }
  cbn. destruct (IH mid1 Hnd) as (mid' & Hrun & Hp & Hc).
  exists mid'. split_and!; [done|congruence|]. intros key. rewrite Hc, Hc1.
  destruct (decide (key = k)) as [->|Hne].
  - rewrite (decide_False _ _ Hk), decide_True; [done|]. by apply elem_of_cons; left.
  - destruct (decide (key ∈ keys)) as [Hin|Hout].
    + rewrite decide_True; [done|]. by apply elem_of_cons; right.
    + rewrite decide_False; [done|]. by intros [?|?]%elem_of_cons.
Qed.

(** X3. [Write] of an overlay whose parent is itself an overlay always
    returns, and stays in the parent overlay: the store under the parent
    overlay is left as it was, and in the parent overlay each tombstone of
    the child becomes a tombstone, each pending write a pending write, and
    every other key keeps its entry. *)
Theorem nested_Write_stays_in_the_parent_overlay
    (child : Cache.Store (Cache.Store P)) (visited : list (string * cValue)) :
  visited ≡ₚ map_to_list (cache child) →
  ∃ mid, WriteVisiting visited child = Done (mkStore ∅ mid)
         ∧ parent mid = parent (parent child)
         ∧ ∀ key, cache mid !! key
                  = match cache child !! key with
                    | Some cv =>
                        if dirty cv then flushedEntry cv (cache (parent child) !! key)
                        else cache (parent child) !! key
                    | None => cache (parent child) !! key
                    end.
Proof.
  intros Hperm. unfold WriteVisiting.
  assert (Hnd : NoDup (sortStrings (dirtyKeys visited))).
  { unfold sortStrings. rewrite merge_sort_Permutation, (dirtyKeys_Permutation _ _ Hperm).
    apply dirtyKeys_NoDup, NoDup_fst_map_to_list. }
  destruct (flushKeys_overlay (cache child) _ (parent child) Hnd)
    as (mid & Hrun & Hp & Hc).
  exists mid. rewrite Hrun. split_and!; [done..|].
  intros key. rewrite Hc.
  assert (Hin : key ∈ sortStrings (dirtyKeys visited)
                ↔ ∃ cv, cache child !! key = Some cv ∧ dirty cv = true).
  { unfold sortStrings. rewrite merge_sort_Permutation, (dirtyKeys_Permutation _ _ Hperm).
    apply elem_of_dirtyKeys. }
  destruct (decide (key ∈ sortStrings (dirtyKeys visited))) as [Hk|Hk].
  - apply Hin in Hk as (cv & -> & ->). done.
  - destruct (cache child !! key) as [cv|] eqn:Hcv; [|done].
    destruct (dirty cv) eqn:Hd; [|done].
    destruct Hk. apply Hin. eauto.
Qed.

End OverlayFacts.

(** ** The cache overlay over a parent that keeps its contract *)

Section ContractFacts.
Import Cache.
Context {P : Type} `{!KVStore P}.
Context (valid : P → Prop) (contents : P → gmap string string).
Context (laws : KVLaws valid contents).

Lemma view_lookup (ci : Cache.Store P) (key : string) :
  view contents ci !! key
  = match cache ci !! key with
    | Some cv => value cv
    | None => contents (parent ci) !! key
    end.
Proof.
  unfold view. rewrite lookup_merge.
  by destruct (cache ci !! key), (contents (parent ci) !! key).
Qed.

Lemma Get_view (key : string) (ci : Cache.Store P) :
  coherent valid contents ci →
  ∃ ci', Get (Some key) ci = Done (view contents ci !! key, ci')
         ∧ coherent valid contents ci'
         ∧ view contents ci' = view contents ci
         ∧ contents (parent ci') = contents (parent ci).
Proof.
  intros [Hvalid Hcoh]. unfold Get. cbn. rewrite view_lookup.
  destruct (cache ci !! key) as [cv|] eqn:Hc; cbn.
  { exists ci. by split_and!. }
  destruct (law_get _ _ laws key (parent ci) Hvalid) as (p' & -> & Hv' & Hsame).
  cbn. eexists. split; [reflexivity|]. split_and!.
  - split; [done|]. cbn. intros k cv. rewrite Hsame.
    destruct (decide (key = k)) as [->|Hne].
    + rewrite lookup_insert_eq. intros [= <-]. cbn. by split_and!.
    + rewrite lookup_insert_ne by done. apply Hcoh.
  - apply map_eq. intros k. rewrite !view_lookup. cbn. rewrite Hsame.
    destruct (decide (key = k)) as [->|Hne].
    + by rewrite lookup_insert_eq, Hc.
    + by rewrite lookup_insert_ne.
  - done.
Qed.

Lemma Set_view (key v : string) (ci : Cache.Store P) :
  coherent valid contents ci →
  ∃ ci', Set_ (Some key) (Some v) ci = Done ci'
         ∧ coherent valid contents ci'
         ∧ view contents ci' = <[key := v]> (view contents ci)
         ∧ parent ci' = parent ci.
Proof.
  intros [Hvalid Hcoh]. eexists. split; [reflexivity|]. split_and!.
  - split; [done|]. cbn. intros k cv.
    destruct (decide (key = k)) as [->|Hne].
    + rewrite lookup_insert_eq. intros [= <-]. cbn. by split_and!.
    + rewrite lookup_insert_ne by done. apply Hcoh.
  - apply map_eq. intros k. rewrite view_lookup. cbn.
    destruct (decide (key = k)) as [->|Hne].
    + by rewrite !lookup_insert_eq.
    + rewrite !lookup_insert_ne by done. by rewrite view_lookup.
  - done.
Qed.

Lemma Delete_view (key : string) (ci : Cache.Store P) :
  coherent valid contents ci →
  ∃ ci', Delete (Some key) ci = Done ci'
         ∧ coherent valid contents ci'
         ∧ view contents ci' = delete key (view contents ci)
         ∧ parent ci' = parent ci.
Proof.
  intros [Hvalid Hcoh]. eexists. split; [reflexivity|]. split_and!.
  - split; [done|]. cbn. intros k cv.
    destruct (decide (key = k)) as [->|Hne].
    + rewrite lookup_insert_eq. intros [= <-]. cbn. by split_and!.
    + rewrite lookup_insert_ne by done. apply Hcoh.
  - apply map_eq. intros k. rewrite view_lookup. cbn.
    destruct (decide (key = k)) as [->|Hne].
    + by rewrite lookup_insert_eq, lookup_delete_eq.
    + rewrite lookup_insert_ne, lookup_delete_ne by done. by rewrite view_lookup.
  - done.
Qed.

(** X4. Over a parent that keeps its contract, [Get] returns what the
    overlay shows under the key and [Has] whether it shows anything; both
    leave what the overlay shows, and the contents of the parent, as they
    were. *)
Theorem overlay_reads_return_the_view (key : string) (ci : Cache.Store P) :
  coherent valid contents ci →
  (∃ ci', Get (Some key) ci = Done (view contents ci !! key, ci')
          ∧ coherent valid contents ci'
          ∧ view contents ci' = view contents ci
          ∧ contents (parent ci') = contents (parent ci))
  ∧ (∃ ci', Has (Some key) ci
            = Done (bool_decide (is_Some (view contents ci !! key)), ci')
            ∧ coherent valid contents ci'
            ∧ view contents ci' = view contents ci
            ∧ contents (parent ci') = contents (parent ci)).
Proof.
  intros Hcoh. destruct (Get_view key ci Hcoh) as (ci' & Hget & Hc' & Hv & Hp).
  split; [by exists ci'|]. exists ci'. unfold Has. rewrite Hget. cbn.
  split_and!; [|done..]. do 2 f_equal.
  apply bool_decide_ext. rewrite <- not_eq_None_Some. done.
Qed.

Lemma runOverlayCalls_view (cs : list overlayCall) (ci : Cache.Store P) :
  coherent valid contents ci →
  ∃ ci', runOverlayCalls cs ci = Done ci'
         ∧ coherent valid contents ci'
         ∧ view contents ci' = foldl (λ m c, applyCall c m) (view contents ci) cs
         ∧ contents (parent ci') = contents (parent ci).
Proof.
  revert ci. induction cs as [|c cs IH]; intros ci Hcoh.
  { exists ci. by split_and!. }
  assert (∃ ci1, runOverlayCall c ci = Done ci1
                 ∧ coherent valid contents ci1
                 ∧ view contents ci1 = applyCall c (view contents ci)
                 ∧ contents (parent ci1) = contents (parent ci))
    as (ci1 & Hrun & Hcoh1 & Hv1 & Hp1).
  { destruct c as [key|key|key v|key]; cbn [runOverlayCall applyCall].
    - destruct (Get_view key ci Hcoh) as (ci1 & -> & ? & ? & ?). by exists ci1.
    - destruct (Get_view key ci Hcoh) as (ci1 & Hget & ? & ? & ?).
      exists ci1. unfold Has. rewrite Hget. by split_and!.
    - destruct (Set_view key v ci Hcoh) as (ci1 & -> & ? & ? & Hpar).
      exists ci1. by rewrite Hpar.
    - destruct (Delete_view key ci Hcoh) as (ci1 & -> & ? & ? & Hpar).
      exists ci1. by rewrite Hpar. }
  destruct (IH ci1 Hcoh1) as (ci' & Hruns & Hcoh' & Hv' & Hp').
  exists ci'. cbn [runOverlayCalls foldl]. rewrite Hrun. cbn.
  split_and!; [done|done|by rewrite Hv', Hv1|congruence].
Qed.

(** X5. Over a parent that keeps its contract, a sequence of calls on the
    overlay returns and acts on what the overlay shows as it would on a
    map: [Set] inserts, [Delete] removes, [Get] and [Has] change nothing.
    The contents of the parent stay as they were throughout. *)
Theorem overlay_calls_act_on_the_view
    (cs : list overlayCall) (ci : Cache.Store P) :
  coherent valid contents ci →
  ∃ ci', runOverlayCalls cs ci = Done ci'
         ∧ coherent valid contents ci'
         ∧ view contents ci' = foldl (λ m c, applyCall c m) (view contents ci) cs
         ∧ contents (parent ci') = contents (parent ci).
Proof. apply runOverlayCalls_view. Qed.

Lemma flushKeys_contract (c : gmap string cValue) (keys : list string) (p : P) :
  NoDup keys → valid p →
  ∃ p', flushKeys c keys p = Done p'
        ∧ valid p'
        ∧ ∀ key, contents p' !! key
                 = if decide (key ∈ keys)
                   then (if deleted (default zeroCValue (c !! key)) then None
                         else match value (default zeroCValue (c !! key)) with
                              | Some v => Some v
                              | None => contents p !! key
                              end)
                   else contents p !! key.
Proof.
  revert p. induction keys as [|k keys IH]; intros p Hnd Hvalid.
  { exists p. split_and!; [done..|]. intros key.
    rewrite decide_False; [done|]. apply not_elem_of_nil. }
  apply NoDup_cons in Hnd as [Hk Hnd]. cbn [flushKeys].
  assert (∃ p1, flushKey c k p = Done p1
                ∧ valid p1
                ∧ ∀ key, contents p1 !! key
                         = if decide (key = k)
                           then (if deleted (default zeroCValue (c !! k)) then None
                                 else match value (default zeroCValue (c !! k)) with
                                      | Some v => Some v
                                      | None => contents p !! k
                                      end)
                           else contents p !! key)
    as (p1 & -> & Hv1 & Hc1).
  { unfold flushKey.
    destruct (deleted (default zeroCValue (c !! k))); cbn.
    - destruct (law_delete _ _ laws k p Hvalid) as (p1 & Hd & ? & Hc).
      exists p1. split_and!; [done..|]. intros key. rewrite Hc.
      destruct (decide (key = k)) as [->|Hne];
        [by rewrite lookup_delete_eq|by rewrite lookup_delete_ne].
    - destruct (value (default zeroCValue (c !! k))) as [v|]; cbn.
      + destruct (law_set _ _ laws k v p Hvalid) as (p1 & Hs & ? & Hc).
        exists p1. split_and!; [done..|]. intros key. rewrite Hc.
        destruct (decide (key = k)) as [->|Hne];
          [by rewrite lookup_insert_eq|by rewrite lookup_insert_ne].
      + exists p. split_and!; [done..|]. intros key.
        by destruct (decide (key = k)) as [->|Hne]. }
  cbn. destruct (IH p1 Hnd Hv1) as (p' & Hrun & Hv' & Hc').
  exists p'. split_and!; [done..|]. intros key. rewrite Hc', Hc1.
  destruct (decide (key = k)) as [->|Hne].
  - rewrite (decide_False _ _ Hk), decide_True; [done|]. by apply elem_of_cons; left.
  - destruct (decide (key ∈ keys)) as [Hin|Hout].
    + rewrite decide_True; [done|]. by apply elem_of_cons; right.
    + rewrite decide_False; [done|]. by intros [?|?]%elem_of_cons.
Qed.

Lemma WriteVisiting_view (ci : Cache.Store P) (visited : list (string * cValue)) :
  coherent valid contents ci →
  visited ≡ₚ map_to_list (cache ci) →
  ∃ p', WriteVisiting visited ci = Done (mkStore ∅ p')
        ∧ valid p'
        ∧ contents p' = view contents ci
        ∧ coherent valid contents (mkStore ∅ p')
        ∧ view contents (mkStore ∅ p') = view contents ci.
Proof.
  intros [Hvalid Hcoh] Hperm. unfold WriteVisiting.
  assert (Hnd : NoDup (sortStrings (dirtyKeys visited))).
  { unfold sortStrings. rewrite merge_sort_Permutation, (dirtyKeys_Permutation _ _ Hperm).
    apply dirtyKeys_NoDup, NoDup_fst_map_to_list. }
  destruct (flushKeys_contract (cache ci) _ (parent ci) Hnd Hvalid)
    as (p' & -> & Hv' & Hc').
  assert (Hcontents : contents p' = view contents ci).
  { apply map_eq. intros key. rewrite Hc', view_lookup.
    assert (Hin : key ∈ sortStrings (dirtyKeys visited)
                  ↔ ∃ cv, cache ci !! key = Some cv ∧ dirty cv = true).
    { unfold sortStrings.
      rewrite merge_sort_Permutation, (dirtyKeys_Permutation _ _ Hperm).
      apply elem_of_dirtyKeys. }
    destruct (decide (key ∈ sortStrings (dirtyKeys visited))) as [Hk|Hk].
    - apply Hin in Hk as (cv & Hcv & Hd). rewrite Hcv. cbn.
      destruct (Hcoh key cv Hcv) as (_ & Hdel & Hset).
      destruct (deleted cv) eqn:Hdl.
      + by destruct (Hdel eq_refl) as [_ ->].
      + by destruct (Hset Hd eq_refl) as [v ->].
    - destruct (cache ci !! key) as [cv|] eqn:Hcv; [|done].
      destruct (dirty cv) eqn:Hd.
      + destruct Hk. apply Hin. eauto.
      + by destruct (Hcoh key cv Hcv) as ([_ ->] & _). }
  exists p'. cbn. split_and!; [done..| |].
  - split; [done|]. intros key cv. cbn. by rewrite lookup_empty.
  - rewrite <- Hcontents. apply map_eq. intros key.
    rewrite lookup_merge, lookup_empty. by destruct (contents p' !! key).
Qed.

(** X6. Over a parent that keeps its contract, [Write] returns, whatever
    the order in which the map was traversed, and the contents of the
    parent are then exactly what the overlay showed; the overlay is left
    empty, so it shows the same as before. *)
Theorem Write_moves_the_view_into_the_parent
    (ci : Cache.Store P) (visited : list (string * cValue)) :
  coherent valid contents ci →
  visited ≡ₚ map_to_list (cache ci) →
  ∃ p', WriteVisiting visited ci = Done (mkStore ∅ p')
        ∧ valid p'
        ∧ contents p' = view contents ci
        ∧ coherent valid contents (mkStore ∅ p')
        ∧ view contents (mkStore ∅ p') = view contents ci.
Proof. apply WriteVisiting_view. Qed.

(** X7. An overlay over a parent that keeps its contract keeps the
    contract itself, what it shows being its contents: overlays can be
    stacked to any depth. *)
Theorem overlay_keeps_the_contract :
  KVLaws (coherent valid contents) (view contents).
Proof.
  split.
  - intros key ci Hcoh.
    destruct (Get_view key ci Hcoh) as (ci' & Hget & ? & ? & _). by exists ci'.
  - intros key v ci Hcoh.
    destruct (Set_view key v ci Hcoh) as (ci' & Hset & ? & ? & _). by exists ci'.
  - intros key ci Hcoh.
    destruct (Delete_view key ci Hcoh) as (ci' & Hdel & ? & ? & _). by exists ci'.
Qed.

(** X8. Calls made on a fresh overlay and then written back leave the
    parent with the contents the calls describe: its contents before,
    with each [Set] inserted and each [Delete] removed in turn.  Until
    [Write] the contents of the parent are what they were. *)
Theorem calls_then_Write_apply_the_calls_to_the_parent
    (cs : list overlayCall) (p : P) :
  valid p →
  ∃ ci' p', runOverlayCalls cs (NewStore p) = Done ci'
            ∧ contents (parent ci') = contents p
            ∧ Write ci' = Done (mkStore ∅ p')
            ∧ valid p'
            ∧ contents p' = foldl (λ m c, applyCall c m) (contents p) cs.
Proof.
  intros Hvalid.
  assert (Hcoh : coherent valid contents (NewStore p)).
  { split; [done|]. intros key cv. cbn. by rewrite lookup_empty. }
  assert (Hview : view contents (NewStore p) = contents p).
  { apply map_eq. intros key. rewrite view_lookup. cbn. by rewrite lookup_empty. }
  destruct (runOverlayCalls_view cs _ Hcoh) as (ci' & Hrun & Hcoh' & Hv' & Hp').
  destruct (WriteVisiting_view ci' (map_to_list (cache ci')) Hcoh')
    as (p' & Hw & Hvp' & Hc' & _); [done|].
  exists ci', p'. split_and!; [done..|]. by rewrite Hc', Hv', Hview.
Qed.

End ContractFacts.

(** ** The cache overlay: the dirty items handed to the iterator *)

Section DirtyItemsFacts.
Import Cache.

#[local] Instance itemBefore_total (ascending : bool) : Total (itemBefore ascending).
Proof.
  intros a b. unfold itemBefore. destruct ascending.
  - apply (total String.le).
  - destruct (total String.le (string_of_bytes (Key a)) (string_of_bytes (Key b)));
      auto.
Qed.

#[local] Instance itemBefore_trans (ascending : bool) :
  Transitive (itemBefore ascending).
Proof.
  intros a b c. unfold itemBefore. destruct ascending.
  - apply (transitivity (R := String.le)).
  - intros H1 H2. by apply (transitivity (R := String.le) H2).
Qed.

Lemma elem_of_dirtyItemsVisiting (m : gmap string cValue)
    (visited : list (string * cValue)) (ascending : bool) (it : KVPair) :
  visited ≡ₚ map_to_list m →
  it ∈ dirtyItemsVisiting visited ascending
  ↔ ∃ key cv, m !! key = Some cv ∧ dirty cv = true
              ∧ it = mkKVPair (Some key) (value cv).
Proof.
  intros Hperm. unfold dirtyItemsVisiting.
  rewrite merge_sort_Permutation, Hperm, list_elem_of_fmap. split.
  - intros ([k cv] & -> & [Hd Hin]%list_elem_of_filter).
    apply elem_of_map_to_list in Hin. by exists k, cv.
  - intros (k & cv & Hm & Hd & ->). exists (k, cv). split; [done|].
    apply list_elem_of_filter. split; [done|]. by apply elem_of_map_to_list.
Qed.

Lemma dirtyItems_sorted_unique (m : gmap string cValue) (ascending : bool)
    (l1 l2 : list KVPair) :
  (∀ it, it ∈ l1 → ∃ key cv, m !! key = Some cv ∧ it = mkKVPair (Some key) (value cv)) →
  Sorted (itemBefore ascending) l1 → Sorted (itemBefore ascending) l2 →
  l1 ≡ₚ l2 → l1 = l2.
Proof.
  intros Hfrom Hs1 Hs2 Hperm.
  apply (Sorted_unique_strong (itemBefore ascending)); [|done..].
  intros x1 x2 Hx1 Hx2 H12 H21. rewrite <- Hperm in Hx2.
  destruct (Hfrom x1 Hx1) as (k1 & cv1 & Hm1 & ->).
  destruct (Hfrom x2 Hx2) as (k2 & cv2 & Hm2 & ->).
  assert (k1 = k2) as ->.
  { unfold itemBefore in H12, H21. cbn in H12, H21.
    destruct ascending; by apply (anti_symm String.le). }
  rewrite Hm1 in Hm2. by injection Hm2 as ->.
Qed.

(** X9. [dirtyItems] lists exactly the dirty entries of the overlay, each
    as its key with its value (nil for a tombstone), whatever the order
    in which the map was traversed; ascending, the keys are in strictly
    ascending byte-wise order, and descending the slice is the ascending
    one reversed. *)
Theorem dirtyItems_are_the_dirty_entries_in_key_order
    {P : Type} (ci : Cache.Store P) (visited : list (string * cValue))
    (ascending : bool) :
  visited ≡ₚ map_to_list (cache ci) →
  dirtyItemsVisiting visited ascending = dirtyItems ci ascending
  ∧ (∀ it, it ∈ dirtyItems ci ascending
           ↔ ∃ key cv, cache ci !! key = Some cv ∧ dirty cv = true
                       ∧ it = mkKVPair (Some key) (value cv))
  ∧ StronglySorted (strict String.le)
      ((λ it, string_of_bytes (Key it)) <$> dirtyItems ci true)
  ∧ dirtyItems ci false = reverse (dirtyItems ci true).
Proof.
  intros Hperm.
  assert (Hfrom : ∀ asc it, it ∈ dirtyItems ci asc →
            ∃ key cv, cache ci !! key = Some cv ∧ it = mkKVPair (Some key) (value cv)).
  { intros asc it Hit.
    apply (elem_of_dirtyItemsVisiting (cache ci)) in Hit as (k & cv & ? & _ & ?);
      [by exists k, cv|done]. }
  split_and!.
  - symmetry. apply (dirtyItems_sorted_unique (cache ci) ascending).
    + apply Hfrom.
    + apply (Sorted_merge_sort _).
    + apply (Sorted_merge_sort _).
    + unfold dirtyItems, dirtyItemsVisiting.
      by rewrite !merge_sort_Permutation, Hperm.
  - intros it. by apply elem_of_dirtyItemsVisiting.
  - apply StronglySorted_strict.
    + apply Sorted_StronglySorted; [apply _|].
      apply (Sorted_fmap _ (itemBefore true)); [done|].
      apply (Sorted_merge_sort _).
    + unfold dirtyItems, dirtyItemsVisiting.
      rewrite merge_sort_Permutation, <- list_fmap_compose.
      apply (dirtyKeys_NoDup (map_to_list (cache ci))), NoDup_fst_map_to_list.
  - apply (dirtyItems_sorted_unique (cache ci) false).
    + apply Hfrom.
    + apply (Sorted_merge_sort _).
    + apply (Sorted_reverse (itemBefore true)), (Sorted_merge_sort _).
    + unfold dirtyItems, dirtyItemsVisiting.
      by rewrite reverse_Permutation, !merge_sort_Permutation.
Qed.

End DirtyItemsFacts.

(** ** The root multi-store: mounting, and loading what was mounted *)

Section MountedFacts.
Import RootMulti.
Context {T S : Type} `{!CommitKVStore T S} `{!Externals}.
Local Abbreviation Root := (Store (T := T) (S := S)).

Lemma mounted_inv (rs : Root) :
  mounted rs →
  (∀ name key, keysByName rs !! name = Some key
               ↔ is_Some (storesParams rs !! key) ∧ keyName key = name)
  ∧ (∀ key params, storesParams rs !! key = Some params →
                   spKey params = key ∧ spTyp params = None)
  ∧ stores rs = ∅
  ∧ lastCommitID rs = zeroCommitID.
Proof.
  induction 1 as [d|rs key mdb rs' Hm (Hidx & Hpar & Hst & Hlast) Hmount].
  { cbn. split_and!; [|by intros ?? ?%lookup_empty_Some|done..].
    intros name key. rewrite !lookup_empty. split; [done|].
    by intros [[]%is_Some_None _]. }
  unfold MountStoreWithDB in Hmount. destruct key as [key|]; [|done].
  destruct (decide (is_Some (storesParams rs !! key))) as [|Hfresh]; [done|].
  destruct (decide (is_Some (keysByName rs !! keyName key))) as [|Hname]; [done|].
  injection Hmount as <-. cbn. split_and!; [| |done..].
  - intros name k. rewrite lookup_insert_Some, lookup_insert_is_Some, Hidx. split.
    + intros [[<- <-]|[Hne [Hk <-]]]; [by split; [left|]|].
      split; [|done]. right. split; [|done]. intros ->. destruct Hname.
      exists k. apply Hidx. done.
    + intros [[<-|[Hne Hk]] <-]; [by left|]. right. split_and!; [|done..].
      intros Heq. destruct Hname. exists k. apply Hidx. by rewrite Heq.
  - intros k params [[<- <-]|[_ Hk]]%lookup_insert_Some; [done|]. by apply Hpar.
Qed.

(** X10. In a root made by [NewCommitMultiStore] and accepted mounts the
    name index holds exactly the mounted keys, each under its name, so no
    two mounted keys share a name; no sub-store is loaded and the last
    commit id is the zero one. *)
Theorem mounted_root_indexes_its_keys_by_name (rs : Root) :
  mounted rs →
  (∀ name key, keysByName rs !! name = Some key
               ↔ is_Some (storesParams rs !! key) ∧ keyName key = name)
  ∧ distinctNames (storesParams rs)
  ∧ stores rs = ∅
  ∧ LastCommitID rs = zeroCommitID.
Proof.
  intros Hm. destruct (mounted_inv rs Hm) as (Hidx & _ & Hst & Hlast).
  split_and!; [done| |done..].
  intros k1 k2 H1 H2 Hname.
  assert (keysByName rs !! keyName k1 = Some k1) as E1 by by apply Hidx.
  assert (keysByName rs !! keyName k1 = Some k2) as E2 by by apply Hidx.
  congruence.
Qed.

(** X11. On such a root [MountStoreWithDB] panics exactly when the key is
    nil or a mounted key carries the name of the key (the key itself, if
    it is mounted); otherwise it returns a root with the key mounted and
    indexed under its name, everything else being as before. *)
Theorem Mount_refuses_nil_keys_and_taken_names
    (rs : Root) (key : option StoreKey) (mdb : option DB) :
  mounted rs →
  (panics (MountStoreWithDB key mdb rs)
   ↔ key = None
     ∨ ∃ k k', key = Some k ∧ is_Some (storesParams rs !! k')
               ∧ keyName k' = keyName k)
  ∧ ∀ rs', MountStoreWithDB key mdb rs = Done rs' →
      ∃ k, key = Some k
           ∧ storesParams rs' = <[k := mkStoreParams k mdb None]> (storesParams rs)
           ∧ keysByName rs' = <[keyName k := k]> (keysByName rs)
           ∧ stores rs' = stores rs ∧ db rs' = db rs
           ∧ lastCommitID rs' = lastCommitID rs ∧ pruning rs' = pruning rs.
Proof.
  intros Hm. destruct (mounted_inv rs Hm) as (Hidx & _).
  unfold MountStoreWithDB. destruct key as [key|]; cbn.
  2:{ split; [|done]. split; [by left|done]. }
  destruct (decide (is_Some (storesParams rs !! key))) as [Hold|Hfresh]; cbn.
  { split; [|done]. split; [|done]. intros _. right. by exists key, key. }
  destruct (decide (is_Some (keysByName rs !! keyName key))) as [[k' Hk']|Hname]; cbn.
  { split; [|done]. split; [|done]. intros _. right.
    apply Hidx in Hk' as [? ?]. by exists key, k'. }
  split.
  - split; [done|]. intros [|(k & k' & [= <-] & Hk' & Hn)]; [done|].
    apply Hname. exists k'. apply Hidx. done.
  - intros rs' [= <-]. exists key. by split_and!.
Qed.

(** X12. [MountStoreWithDB] records no type for the store, and
    [loadCommitStoreFromParams] takes the zero value of the recorded
    type: on a root made by [NewCommitMultiStore] and accepted mounts,
    with at least one store mounted, a load that gets as far as the
    sub-stores panics in [reflect.Zero]. *)
Theorem load_of_a_mounted_root_panics
    (rs : Root) (visited : list (StoreKey * storeParams)) (ver : Z)
    (r : CommitID * gmap StoreKey storeInfo) :
  mounted rs →
  visited ≡ₚ map_to_list (storesParams rs) →
  storesParams rs ≠ ∅ →
  loadInfos visited.*1 ver rs = Done (Ok r) →
  LoadMultiStoreVersionVisiting visited ver rs = Panic "reflect: Zero(nil)".
Proof.
  intros Hm Hperm Hne Hinfos. destruct (mounted_inv rs Hm) as (_ & Hpar & _).
  unfold LoadMultiStoreVersionVisiting. rewrite Hinfos. cbn.
  destruct r as [lastID infos].
  destruct visited as [|[k p] visited].
  { symmetry in Hperm. apply Permutation_nil_r in Hperm.
    apply map_to_list_empty_iff in Hperm. done. }
  assert (Hkp : storesParams rs !! k = Some p).
  { apply elem_of_map_to_list. rewrite <- Hperm. by apply elem_of_cons; left. }
  destruct (Hpar k p Hkp) as [_ Htyp].
  cbn [loadStores]. unfold loadCommitStoreFromParams. rewrite Htyp. done.
Qed.

(** With the name index in step with the mounted keys, [getStoreByName]
    on the name of a mounted key returns the sub-store loaded for that
    key, nil when none is loaded; on a name that is not indexed it returns
    nil. *)
Lemma getStoreByName_finds_the_store_of_the_named_key
    (rs : Root) (key : StoreKey) :
  nameIndexed rs →
  is_Some (storesParams rs !! key) →
  getStoreByName rs (keyName key) = stores rs !! key
  ∧ ∀ name, keysByName rs !! name = None → getStoreByName rs name = None.
Proof.
  intros Hidx Hkey. unfold getStoreByName. split.
  - by rewrite (Hidx key Hkey).
  - by intros name ->.
Qed.

End MountedFacts.

(** ** The root multi-store: paths, commits and what they persist *)

Section PersistFacts.
Import RootMulti.
Context {T S : Type} `{!CommitKVStore T S} `{!Externals}.
Local Abbreviation Root := (Store (T := T) (S := S)).

(** X13. [parsePath] takes a path with a leading slash apart without
    losing anything: the store name has no slash, the sub-path is empty or
    starts with a slash, and a slash, the name and the sub-path put
    together give the path back; no error is returned. *)
Theorem parsePath_takes_the_path_apart (path : string) :
  hasSlashPrefix path = true →
  ∃ name subpath,
    parsePath path = (name, subpath, None)
    ∧ path = "/" +:+ name +:+ subpath
    ∧ noSlash name = true
    ∧ (subpath = EmptyString ∨ hasSlashPrefix subpath = true).
Proof.
  intros Hp. unfold parsePath. rewrite Hp.
  destruct path as [|c path]; [done|]. cbn in Hp.
  destruct (decide (c = "/"%char)) as [->|]; [|done].
  cbn [String.length String.substring].
  replace (Datatypes.S (String.length path) - 1)%nat
    with (String.length path) by lia.
  rewrite substring_all.
  destruct (splitSlash2_shape path) as [Hno Heq].
  destruct (splitSlash2 path) as [name [rest|]]; cbn in Hno, Heq.
  - exists name, ("/" +:+ rest). split_and!; [done|by rewrite Heq at 1|done|].
    right. reflexivity.
  - exists name, EmptyString. split_and!; [done|by rewrite Heq at 1|done|by left].
Qed.

Lemma omap_length_le {A B} (f : A → option B) (l : list A) :
  (length (omap f l) ≤ length l)%nat.
Proof.
  induction l as [|x l IH]; [done|]. cbn. destruct (f x); cbn; lia.
Qed.

(** X14. [commitStores] commits every sub-store of the map exactly once,
    whatever the order of the traversal, and records the version and one
    entry, name and commit id, for each sub-store whose commit id is not
    zero: a sub-store that reports the zero commit id is committed and
    left out of the commit info. *)
Theorem commitStores_commits_each_store_once
    (version : Z) (visited : list (StoreKey * S)) (storeMap : gmap StoreKey S) :
  visited ≡ₚ map_to_list storeMap →
  ciVersion (commitStores version visited storeMap).1 = version
  ∧ (commitStores version visited storeMap).2
    = (λ st, (storeCommit st).2) <$> storeMap
  ∧ (∀ si, si ∈ StoreInfos (commitStores version visited storeMap).1
           ↔ ∃ key st, storeMap !! key = Some st
                       ∧ IsZero (storeCommit st).1 = false
                       ∧ si = mkStoreInfo (keyName key)
                                (mkStoreCore (storeCommit st).1))
  ∧ (length (StoreInfos (commitStores version visited storeMap).1)
     ≤ size storeMap)%nat.
Proof.
  intros Hperm. rewrite (commitStores_result _ _ _ Hperm). cbn.
  split_and!; [done|done| |].
  - intros si. rewrite list_elem_of_omap. split.
    + intros ([k st] & Hin & Hsi). rewrite Hperm in Hin.
      apply elem_of_map_to_list in Hin. unfold committedInfo in Hsi. cbn in Hsi.
      destruct (IsZero (storeCommit st).1) eqn:Hz; [done|].
      injection Hsi as <-. by exists k, st.
    + intros (k & st & Hm & Hz & ->). exists (k, st). split.
      * rewrite Hperm. by apply elem_of_map_to_list.
      * unfold committedInfo. cbn. by rewrite Hz.
  - etrans; [apply omap_length_le|].
    by rewrite Hperm, length_map_to_list.
Qed.

Lemma format_int_not_latest (ver : Z) : format_int ver ≠ "latest"%string.
Proof.
  unfold format_int. destruct (Z.to_int ver) as [d|d]; cbn.
  - destruct d; cbn; discriminate.
  - discriminate.
Qed.

Lemma commitInfoKey_not_latest (ver : Z) : commitInfoKey ver ≠ latestVersionKey.
Proof.
  unfold commitInfoKey, latestVersionKey. intros Heq.
  injection Heq as Heq. by apply format_int_not_latest in Heq.
Qed.

Lemma CommitVisiting_readback (visited : list (StoreKey * S)) (rs rs' : Root)
    (cid : CommitID) :
  CommitVisiting visited rs = Done (cid, rs') →
  unmarshalInt64 (marshalInt64 (Version cid)) = Ok (Version cid) →
  (∀ ci bz, marshalCommitInfo ci = Ok bz → unmarshalCommitInfo bz = Ok ci) →
  getLatestVersion (db rs') = Done (Version cid)
  ∧ getCommitInfo (db rs') (Version cid)
    = Ok (commitStores (Version cid) visited (stores rs)).1
  ∧ commitInfoCommitID (commitStores (Version cid) visited (stores rs)).1 = cid
  ∧ storesParams rs' = storesParams rs
  ∧ keysByName rs' = keysByName rs
  ∧ pruning rs' = pruning rs.
Proof.
  unfold CommitVisiting, commitStores.
  set (acc := fold_left commitStoresStep visited ([], stores rs)).
  set (version := int64_add (Version (lastCommitID rs)) 1).
  cbn. unfold setCommitInfo.
  destruct (marshalCommitInfo (mkCommitInfo version acc.1)) as [bz|e] eqn:Hbz;
    cbn; [|done].
  intros [= <- <-] Hint Hci. cbn in *.
  unfold batchWrite, setLatestVersion, batchSet. cbn.
  split_and!; [| |done|done|done|done].
  - unfold getLatestVersion. rewrite lookup_insert_eq. by rewrite Hint.
  - unfold getCommitInfo.
    rewrite lookup_insert_ne by (apply not_eq_sym, commitInfoKey_not_latest).
    rewrite lookup_insert_eq. by rewrite (Hci _ _ Hbz).
Qed.

(** X15. [Commit] persists what it returns.  With an encoder that decodes
    what it encoded, after a commit that returned [cid] the root database
    holds the version of [cid] under the latest-version key and, under
    the key of that version, the commit info of the sub-stores just
    committed, whose commit id is [cid]; the mounted keys, the name index
    and the pruning strategy are as before.  Nothing is said of the other
    keys of the database: the sub-stores write under their own prefixes
    of it when they commit. *)
Theorem Commit_persists_what_it_returns
    (visited : list (StoreKey * S)) (rs rs' : Root) (cid : CommitID) :
  CommitVisiting visited rs = Done (cid, rs') →
  unmarshalInt64 (marshalInt64 (Version cid)) = Ok (Version cid) →
  (∀ ci bz, marshalCommitInfo ci = Ok bz → unmarshalCommitInfo bz = Ok ci) →
  getLatestVersion (db rs') = Done (Version cid)
  ∧ getCommitInfo (db rs') (Version cid)
    = Ok (commitStores (Version cid) visited (stores rs)).1
  ∧ commitInfoCommitID (commitStores (Version cid) visited (stores rs)).1 = cid
  ∧ storesParams rs' = storesParams rs
  ∧ keysByName rs' = keysByName rs
  ∧ pruning rs' = pruning rs.
Proof. apply CommitVisiting_readback. Qed.

(** X16. Loading a non-zero version whose commit info cannot be read
    returns the error of [getCommitInfo] as it is, "no data" when the
    database holds nothing under the key of the version and the decoder's
    error behind "failed to get Store: " when it holds bytes that do not
    decode, and leaves the root as it was. *)
Theorem load_returns_the_commit_info_error
    (visited : list (StoreKey * storeParams)) (ver : Z) (rs : Root) (e : string) :
  ver ≠ 0 →
  getCommitInfo (db rs) ver = Err e →
  LoadMultiStoreVersionVisiting visited ver rs = Done (Some e, rs)
  ∧ ((db rs !! commitInfoKey ver = None ∧ e = "failed to get Store: no data"%string)
     ∨ ∃ bz e', db rs !! commitInfoKey ver = Some bz
                ∧ unmarshalCommitInfo bz = Err e'
                ∧ e = ("failed to get Store: " +:+ e')%string).
Proof.
  intros Hver Herr. split.
  - unfold LoadMultiStoreVersionVisiting, loadInfos.
    rewrite decide_True by done. by rewrite Herr.
  - unfold getCommitInfo in Herr.
    destruct (db rs !! commitInfoKey ver) as [bz|]; [|left; by injection Herr as <-].
    right. destruct (unmarshalCommitInfo bz) as [ci|e'] eqn:Hd; [done|].
    injection Herr as <-. by exists bz, e'.
Qed.

End PersistFacts.

(** ** The root multi-store: what a successful load leaves *)

Section LoadedFacts.
Import RootMulti.
Context {T S : Type} `{!CommitKVStore T S} `{!Externals}.
Local Abbreviation Root := (Store (T := T) (S := S)).



Lemma collectInfos_lookup (visited : list StoreKey) (sis : list storeInfo)
    (infos0 infos : gmap StoreKey storeInfo) (m0 : gmap string storeInfo) :
  (∀ k1 k2, k1 ∈ visited → k2 ∈ visited → keyName k1 = keyName k2 → k1 = k2) →
  collectInfos visited sis infos0 = Done infos →
  (∀ key, key ∈ visited → infos0 !! key = m0 !! keyName key) →
  ∀ key, key ∈ visited →
    infos !! key = fold_left (λ m si, <[Name si := si]> m) sis m0 !! keyName key.
Proof.
  intros Hdist. revert infos0 m0.
  induction sis as [|si sis IH]; intros infos0 m0 Hrun Hagree key Hkey.
  { injection Hrun as <-. by apply Hagree. }
  cbn [collectInfos] in Hrun.
  destruct (nameToKeyVisiting visited (Name si)) as [k|msg] eqn:Hk; [|done].
  cbn in Hrun. apply nameToKeyVisiting_known in Hk as [Hkin Hkname].
  cbn [fold_left]. apply (IH _ _ Hrun); [|done].
  intros key' Hkey'. destruct (decide (k = key')) as [->|Hne].
  - by rewrite lookup_insert_eq, <- Hkname, lookup_insert_eq.
  - rewrite !lookup_insert_ne; [by apply Hagree| |done].
    intros Heq. apply Hne, Hdist; [done..|]. by rewrite Hkname.
Qed.

Lemma loadInfos_recorded (visited : list StoreKey) (ver : Z) (rs : Root)
    (lastID : CommitID) (infos : gmap StoreKey storeInfo) :
  (∀ k1 k2, k1 ∈ visited → k2 ∈ visited → keyName k1 = keyName k2 → k1 = k2) →
  loadInfos visited ver rs = Done (Ok (lastID, infos)) →
  lastID = recordedCommitID rs ver
  ∧ ∀ key, key ∈ visited →
      expectedID infos key
      = match hashMap (recordedInfos rs ver) !! keyName key with
        | Some si => coreCommitID (Core si)
        | None => zeroCommitID
        end.
Proof.
  intros Hdist. unfold loadInfos, recordedCommitID, recordedInfos, expectedID.
  destruct (decide (ver ≠ 0)) as [Hver|Hver].
  - destruct (decide (ver = 0)) as [|_]; [done|].
    destruct (getCommitInfo (db rs) ver) as [cInfo|e]; [|done].
    destruct (collectInfos visited (StoreInfos cInfo) ∅) as [infos'|msg] eqn:Hc;
      cbn; [|done].
    intros [= <- <-]. split; [done|]. intros key Hkey.
    rewrite (collectInfos_lookup _ _ _ _ ∅ Hdist Hc); [done| |done].
    intros k _. by rewrite !lookup_empty.
  - destruct (decide (ver = 0)) as [_|Hne]; [|by destruct Hver].
    intros [= <- <-]. split; [done|]. intros key _.
    unfold hashMap. cbn. by rewrite !lookup_empty.
Qed.

(** X17. A load that returns no error swaps in exactly one sub-store per
    mounted key, each instantiated from the type recorded for the key and
    loaded, without error, at the commit id that the commit info of the
    version records under the name of the key (the last entry of that
    name; the zero commit id when there is none, or for version 0).  The
    last commit id becomes that of the commit info (zero for version 0);
    the database, the mounted keys, the name index and the pruning
    strategy are as before.  The mounted keys carry distinct names. *)
Theorem successful_load_loads_every_mounted_store
    (visited : list (StoreKey * storeParams)) (ver : Z) (rs rs' : Root) :
  distinctNames (storesParams rs) →
  visited ≡ₚ map_to_list (storesParams rs) →
  LoadMultiStoreVersionVisiting visited ver rs = Done (None, rs') →
  LastCommitID rs' = recordedCommitID rs ver
  ∧ (∀ key, is_Some (stores rs' !! key) ↔ is_Some (storesParams rs !! key))
  ∧ (∀ key params, storesParams rs !! key = Some params →
       ∃ typ st, spTyp params = Some typ
                 ∧ stores rs' !! key = Some st
                 ∧ storeLoadKVStoreVersion (storeDB rs params)
                     match hashMap (recordedInfos rs ver) !! keyName key with
                     | Some si => coreCommitID (Core si)
                     | None => zeroCommitID
                     end
                     (zeroStore typ)
                   = (None, st))
  ∧ db rs' = db rs
  ∧ storesParams rs' = storesParams rs
  ∧ keysByName rs' = keysByName rs
  ∧ pruning rs' = pruning rs.
Proof.
  intros Hdist Hperm. unfold LoadMultiStoreVersionVisiting.
  assert (Hmounted : ∀ key, key ∈ visited.*1 ↔ is_Some (storesParams rs !! key)).
  { intros key. rewrite Hperm, list_elem_of_fmap. split.
    - intros ([k p] & -> & Hkp). apply elem_of_map_to_list in Hkp. by eexists.
    - intros [p Hp]. exists (key, p). split; [done|]. by apply elem_of_map_to_list. }
  assert (Hdist' : ∀ k1 k2, k1 ∈ visited.*1 → k2 ∈ visited.*1 →
                            keyName k1 = keyName k2 → k1 = k2).
  { intros k1 k2 H1%Hmounted H2%Hmounted. by apply Hdist. }
  destruct (loadInfos visited.*1 ver rs) as [[[lastID infos]|e]|msg] eqn:Hinfos;
    cbn; [|done..].
  destruct (loadInfos_recorded _ _ _ _ _ Hdist' Hinfos) as [-> Hexp].
  destruct (loadStores rs infos visited ∅) as [[e|newStores]|msg] eqn:Hload;
    cbn; [done| |done].
  intros [= <-]. cbn.
  assert (Hnd : NoDup visited.*1).
  { rewrite Hperm. apply NoDup_fst_map_to_list. }
  destruct (loadStores_loaded rs infos visited ∅ newStores Hnd Hload)
    as [Hloaded Hrest].
  split_and!; [done| | |done..].
  - intros key. rewrite <- Hmounted. split.
    + intros Hk. destruct (decide (key ∈ visited.*1)) as [|Hout]; [done|].
      rewrite (Hrest key Hout), lookup_empty in Hk. by destruct Hk.
    + intros ([k p] & -> & Hin)%list_elem_of_fmap.
      by destruct (Hloaded k p Hin) as (typ & _ & _ & ?).
  - intros key params Hkp.
    assert (Hin : (key, params) ∈ visited).
    { rewrite Hperm. by apply elem_of_map_to_list. }
    destruct (Hloaded key params Hin) as (typ & Htyp & Hst & [st Hsome]).
    exists typ, st. rewrite Hsome in Hst. cbn in Hst.
    rewrite <- Hexp; [done|]. apply list_elem_of_fmap. by exists (key, params).
Qed.


End LoadedFacts.

(** ** The further properties at work *)

Import Cache.

Lemma Get_is_answered_from_the_cache_afterwards_witness :
  Get (Some "a"%string)
      (mkStore {[ "a"%string := mkCValue (Some "1"%string) false false ]} sampleParent)
  = Done (Some "1"%string,
          mkStore {[ "a"%string := mkCValue (Some "1"%string) false false ]} sampleParent)
  ∧ (is_Some (cache (NewStore sampleParent) !! string_of_bytes (Some "a"%string)) →
       mkStore {[ "a"%string := mkCValue (Some "1"%string) false false ]} sampleParent
       = NewStore sampleParent)
  ∧ (cache (NewStore sampleParent) !! string_of_bytes (Some "a"%string) = None →
       ∃ p', kvGet (Some "a"%string) (parent (NewStore sampleParent))
             = Done (Some "1"%string, p')
             ∧ mkStore {[ "a"%string := mkCValue (Some "1"%string) false false ]} sampleParent
               = mkStore (<[string_of_bytes (Some "a"%string)
                            := mkCValue (Some "1"%string) false false]>
                            (cache (NewStore sampleParent))) p').
Proof.
  apply (Get_is_answered_from_the_cache_afterwards (Some "a"%string)
           (NewStore sampleParent)
           (mkStore {[ "a"%string := mkCValue (Some "1"%string) false false ]} sampleParent)
           (Some "1"%string)).
  vm_compute. reflexivity.
Defined.

Lemma nested_Write_stays_in_the_parent_overlay_witness :
  ∃ mid, WriteVisiting (map_to_list (cache nestedOverlay)) nestedOverlay
         = Done (mkStore ∅ mid)
         ∧ parent mid = parent (parent nestedOverlay)
         ∧ ∀ key, cache mid !! key
                  = match cache nestedOverlay !! key with
                    | Some cv =>
                        if dirty cv
                        then flushedEntry cv (cache (parent nestedOverlay) !! key)
                        else cache (parent nestedOverlay) !! key
                    | None => cache (parent nestedOverlay) !! key
                    end.
Proof.
  apply (nested_Write_stays_in_the_parent_overlay nestedOverlay
           (map_to_list (cache nestedOverlay))).
  reflexivity.
Defined.

(** Writing the nested overlay, then the overlay under it, brings the
    store at the bottom up to date; the first [Write] alone leaves it
    untouched. *)
Example nested_Write_twice :
  parent <$> (parent <$> Write nestedOverlay) = Done sampleParent
  ∧ (mid ← parent <$> Write nestedOverlay; parent <$> Write mid)
    = Done (<[("c"%string) := "3"%string]>
              (<[("d"%string) := "4"%string]> (<[("n"%string) := "5"%string]> ∅))).
Proof. vm_compute. done. Qed.

(** The in-memory store keeps the contract of a parent, its contents being
    itself. *)
Lemma memStore_laws : KVLaws (λ _ : memStore, True) (λ m, m).
Proof. split; intros; eexists; by split_and!. Qed.

Lemma tidyOverlay_coherent :
  coherent (λ _ : memStore, True) (λ m, m) tidyOverlay.
Proof.
  split; [done|]. intros key cv. cbn.
  rewrite !lookup_insert_Some, lookup_empty.
  intros [[<- <-]|[_ [[<- <-]|[_ [[<- <-]|[_ [=]]]]]]]; cbn; by split_and!.
Qed.

Lemma overlay_reads_return_the_view_witness :
  (∃ ci', Get (Some "b"%string) tidyOverlay
          = Done (view (λ m, m) tidyOverlay !! "b"%string, ci')
          ∧ coherent (λ _ : memStore, True) (λ m, m) ci'
          ∧ view (λ m, m) ci' = view (λ m, m) tidyOverlay
          ∧ parent ci' = parent tidyOverlay)
  ∧ (∃ ci', Has (Some "b"%string) tidyOverlay
            = Done (bool_decide (is_Some (view (λ m, m) tidyOverlay !! "b"%string)), ci')
            ∧ coherent (λ _ : memStore, True) (λ m, m) ci'
            ∧ view (λ m, m) ci' = view (λ m, m) tidyOverlay
            ∧ parent ci' = parent tidyOverlay).
Proof.
  apply (overlay_reads_return_the_view (λ _ : memStore, True) (λ m, m)
           memStore_laws "b"%string tidyOverlay).
  exact tidyOverlay_coherent.
Defined.

Lemma overlay_calls_act_on_the_view_witness :
  ∃ ci', runOverlayCalls [OSet "x" "7"; OGet "a"; ODelete "c"; OHas "q"] tidyOverlay
         = Done ci'
         ∧ coherent (λ _ : memStore, True) (λ m, m) ci'
         ∧ view (λ m, m) ci'
           = foldl (λ m c, applyCall c m) (view (λ m, m) tidyOverlay)
               [OSet "x" "7"; OGet "a"; ODelete "c"; OHas "q"]
         ∧ parent ci' = parent tidyOverlay.
Proof.
  apply (overlay_calls_act_on_the_view (λ _ : memStore, True) (λ m, m)
           memStore_laws [OSet "x" "7"; OGet "a"; ODelete "c"; OHas "q"] tidyOverlay).
  exact tidyOverlay_coherent.
Defined.

Lemma Write_moves_the_view_into_the_parent_witness :
  ∃ p', WriteVisiting (map_to_list (cache tidyOverlay)) tidyOverlay
        = Done (mkStore ∅ p')
        ∧ True
        ∧ p' = view (λ m, m) tidyOverlay
        ∧ coherent (λ _ : memStore, True) (λ m, m) (mkStore ∅ p')
        ∧ view (λ m, m) (mkStore ∅ p') = view (λ m, m) tidyOverlay.
Proof.
  apply (Write_moves_the_view_into_the_parent (λ _ : memStore, True) (λ m, m)
           memStore_laws tidyOverlay (map_to_list (cache tidyOverlay))).
  - exact tidyOverlay_coherent.
  - reflexivity.
Defined.

Lemma overlay_keeps_the_contract_witness :
  KVLaws (coherent (λ _ : memStore, True) (λ m, m)) (view (λ m : memStore, m)).
Proof.
  apply (overlay_keeps_the_contract (λ _ : memStore, True) (λ m, m) memStore_laws).
Defined.

Lemma calls_then_Write_apply_the_calls_to_the_parent_witness :
  ∃ ci' p', runOverlayCalls [OSet "x" "7"; OGet "a"; ODelete "b"] (NewStore sampleParent)
            = Done ci'
            ∧ parent ci' = sampleParent
            ∧ Write ci' = Done (mkStore ∅ p')
            ∧ True
            ∧ p' = foldl (λ m c, applyCall c m) sampleParent
                     [OSet "x" "7"; OGet "a"; ODelete "b"].
Proof.
  apply (calls_then_Write_apply_the_calls_to_the_parent (λ _ : memStore, True)
           (λ m, m) memStore_laws [OSet "x" "7"; OGet "a"; ODelete "b"] sampleParent).
  exact I.
Defined.

(** The overlay is out of step once [Set] was given a nil value: it shows
    the key as absent, and [Write] leaves the value of the parent. *)
Example Set_nil_then_Write_keeps_the_parent_value :
  (ci ← Set_ (Some "a"%string) None (NewStore sampleParent);
   '(v, ci) ← Get (Some "a"%string) ci;
   ci ← Write ci;
   Done (v, parent ci !! "a"%string))
  = Done (None, Some "1"%string).
Proof. vm_compute. reflexivity. Qed.

Lemma dirtyItems_are_the_dirty_entries_in_key_order_witness :
  dirtyItemsVisiting (map_to_list (cache sampleOverlay)) true
    = dirtyItems sampleOverlay true
  ∧ (∀ it, it ∈ dirtyItems sampleOverlay true
           ↔ ∃ key cv, cache sampleOverlay !! key = Some cv ∧ dirty cv = true
                       ∧ it = mkKVPair (Some key) (value cv))
  ∧ StronglySorted (strict String.le)
      ((λ it, string_of_bytes (Key it)) <$> dirtyItems sampleOverlay true)
  ∧ dirtyItems sampleOverlay false = reverse (dirtyItems sampleOverlay true).
Proof.
  apply (dirtyItems_are_the_dirty_entries_in_key_order sampleOverlay
           (map_to_list (cache sampleOverlay)) true).
  reflexivity.
Defined.

(** The dirty items of the sample overlay, downwards. *)
Example dirtyItems_sampleOverlay :
  dirtyItems sampleOverlay false
  = [mkKVPair (Some "n"%string) None; mkKVPair (Some "c"%string) (Some "3"%string);
     mkKVPair (Some "b"%string) None].
Proof. vm_compute. reflexivity. Qed.

Import RootMulti.

Lemma mountedRoot_mounted : mounted mountedRoot.
Proof.
  apply (mounted_mount
           (returned (NewCommitMultiStore ∅)
              (MountStoreWithDB (Some accKey) None (NewCommitMultiStore ∅)))
           (Some bankKey) None).
  - apply (mounted_mount (NewCommitMultiStore ∅) (Some accKey) None).
    + apply mounted_new.
    + vm_compute. reflexivity.
  - vm_compute. reflexivity.
Qed.

Lemma mounted_root_indexes_its_keys_by_name_witness :
  (∀ name key, keysByName mountedRoot !! name = Some key
               ↔ is_Some (storesParams mountedRoot !! key) ∧ keyName key = name)
  ∧ distinctNames (storesParams mountedRoot)
  ∧ stores mountedRoot = ∅
  ∧ LastCommitID mountedRoot = zeroCommitID.
Proof.
  apply (mounted_root_indexes_its_keys_by_name mountedRoot).
  exact mountedRoot_mounted.
Defined.

Lemma Mount_refuses_nil_keys_and_taken_names_witness :
  (panics (MountStoreWithDB (Some (mkStoreKey 9 "acc")) None mountedRoot)
   ↔ Some (mkStoreKey 9 "acc") = None
     ∨ ∃ k k', Some (mkStoreKey 9 "acc") = Some k
               ∧ is_Some (storesParams mountedRoot !! k')
               ∧ keyName k' = keyName k)
  ∧ ∀ rs', MountStoreWithDB (Some (mkStoreKey 9 "acc")) None mountedRoot = Done rs' →
      ∃ k, Some (mkStoreKey 9 "acc") = Some k
           ∧ storesParams rs' = <[k := mkStoreParams k None None]> (storesParams mountedRoot)
           ∧ keysByName rs' = <[keyName k := k]> (keysByName mountedRoot)
           ∧ stores rs' = stores mountedRoot ∧ db rs' = db mountedRoot
           ∧ lastCommitID rs' = lastCommitID mountedRoot
           ∧ pruning rs' = pruning mountedRoot.
Proof.
  apply (Mount_refuses_nil_keys_and_taken_names mountedRoot
           (Some (mkStoreKey 9 "acc")) None).
  exact mountedRoot_mounted.
Defined.

(** Mounting another key named "acc" is refused; a key with a new name is
    accepted. *)
Example Mount_scenarios :
  MountStoreWithDB (Some (mkStoreKey 9 "acc")) None mountedRoot
    = Panic "Store duplicate store key name KVStoreKey{acc}"
  ∧ MountStoreWithDB (Some accKey) None mountedRoot
    = Panic "Store duplicate store key KVStoreKey{acc}"
  ∧ MountStoreWithDB None None mountedRoot
    = Panic "MountIAVLStore() key cannot be nil"
  ∧ ¬ panics (MountStoreWithDB (Some tmpKey) None mountedRoot).
Proof. vm_compute. split_and!; [done..|by intros []]. Qed.

Lemma load_of_a_mounted_root_panics_witness :
  LoadMultiStoreVersionVisiting (map_to_list (storesParams mountedRoot)) 0 mountedRoot
  = Panic "reflect: Zero(nil)".
Proof.
  apply (load_of_a_mounted_root_panics mountedRoot
           (map_to_list (storesParams mountedRoot)) 0 (zeroCommitID, ∅)).
  - exact mountedRoot_mounted.
  - reflexivity.
  - vm_compute. discriminate.
  - reflexivity.
Defined.

Lemma parsePath_takes_the_path_apart_witness :
  ∃ name subpath,
    parsePath "/acc/key/more" = (name, subpath, None)
    ∧ "/acc/key/more"%string = "/" +:+ name +:+ subpath
    ∧ noSlash name = true
    ∧ (subpath = EmptyString ∨ hasSlashPrefix subpath = true).
Proof.
  apply (parsePath_takes_the_path_apart "/acc/key/more"). reflexivity.
Defined.

(** Only the first slash after the store name splits the path. *)
Example parsePath_scenarios :
  parsePath "/acc/key/more" = ("acc"%string, "/key/more"%string, None)
  ∧ parsePath "/acc" = ("acc"%string, EmptyString, None)
  ∧ parsePath "/" = (EmptyString, EmptyString, None)
  ∧ parsePath "//k" = (EmptyString, "/k"%string, None)
  ∧ parsePath EmptyString
    = (EmptyString, EmptyString, Some (ErrUnknownRequest "invalid path: ")).
Proof. vm_compute. done. Qed.

Lemma commitStores_commits_each_store_once_witness :
  ciVersion (commitStores 1 (map_to_list (stores loadedRoot)) (stores loadedRoot)).1 = 1
  ∧ (commitStores 1 (map_to_list (stores loadedRoot)) (stores loadedRoot)).2
    = (λ st, (storeCommit st).2) <$> stores loadedRoot
  ∧ (∀ si, si ∈ StoreInfos (commitStores 1 (map_to_list (stores loadedRoot))
                              (stores loadedRoot)).1
           ↔ ∃ key st, stores loadedRoot !! key = Some st
                       ∧ IsZero (storeCommit st).1 = false
                       ∧ si = mkStoreInfo (keyName key)
                                (mkStoreCore (storeCommit st).1))
  ∧ (length (StoreInfos (commitStores 1 (map_to_list (stores loadedRoot))
                           (stores loadedRoot)).1)
     ≤ size (stores loadedRoot))%nat.
Proof.
  apply (commitStores_commits_each_store_once 1 (map_to_list (stores loadedRoot))
           (stores loadedRoot)).
  reflexivity.
Defined.

Lemma tableExternals_decodes (ci : commitInfo) (bz : string) :
  marshalCommitInfo (Externals := tableExternals) ci = Ok bz →
  unmarshalCommitInfo (Externals := tableExternals) bz = Ok ci.
Proof.
  change (marshalCommitInfo (Externals := tableExternals) ci)
    with (if decide (ci = firstInfo) then Ok "first"%string
          else Err (A := string) "not in the table").
  change (unmarshalCommitInfo (Externals := tableExternals) bz)
    with (if decide (bz = "first"%string) then Ok firstInfo else Err "bad bytes").
  destruct (decide (ci = firstInfo)) as [->|]; [|done].
  intros [= <-]. by rewrite decide_True.
Qed.

Lemma committed_Commit :
  CommitVisiting (H := tableExternals) (map_to_list (stores loadedRoot)) loadedRoot
  = Done (committed.1, committed.2).
Proof. vm_compute. reflexivity. Qed.

Lemma Commit_persists_what_it_returns_witness :
  getLatestVersion (H := tableExternals) (db committed.2) = Done (Version committed.1)
  ∧ getCommitInfo (H := tableExternals) (db committed.2) (Version committed.1)
    = Ok (commitStores (Version committed.1) (map_to_list (stores loadedRoot))
            (stores loadedRoot)).1
  ∧ commitInfoCommitID (H := tableExternals)
      (commitStores (Version committed.1) (map_to_list (stores loadedRoot))
         (stores loadedRoot)).1
    = committed.1
  ∧ storesParams committed.2 = storesParams loadedRoot
  ∧ keysByName committed.2 = keysByName loadedRoot
  ∧ pruning committed.2 = pruning loadedRoot.
Proof.
  apply (Commit_persists_what_it_returns (H := tableExternals)
           (map_to_list (stores loadedRoot)) loadedRoot committed.2 committed.1).
  - exact committed_Commit.
  - vm_compute. reflexivity.
  - exact tableExternals_decodes.
Defined.

(** The commit id of the first commit and the two entries the root wrote
    to its database (the sample stores keep nothing in it). *)
Example committed_database :
  committed.1 = mkCommitID 1 (Some "acc=#1:h1;bank=#5:h5"%string)
  ∧ db committed.2
    = <[("s/latest"%string) := "1"%string]> (<[("s/1"%string) := "first"%string]> ∅).
Proof. vm_compute. done. Qed.

Lemma load_returns_the_commit_info_error_witness :
  LoadMultiStoreVersionVisiting (map_to_list (storesParams staleRoot)) 2 staleRoot
  = Done (Some "failed to get Store: no data"%string, staleRoot)
  ∧ ((db staleRoot !! commitInfoKey 2 = None
      ∧ "failed to get Store: no data"%string = "failed to get Store: no data"%string)
     ∨ ∃ bz e', db staleRoot !! commitInfoKey 2 = Some bz
                ∧ unmarshalCommitInfo bz = Err e'
                ∧ "failed to get Store: no data"%string
                  = ("failed to get Store: " +:+ e')%string).
Proof.
  apply (load_returns_the_commit_info_error
           (map_to_list (storesParams staleRoot)) 2 staleRoot
           "failed to get Store: no data").
  - discriminate.
  - vm_compute. reflexivity.
Defined.

Lemma committed_params : storesParams committed.2 = storesParams loadedRoot.
Proof. vm_compute. reflexivity. Qed.

Lemma loadedRoot_params_distinctNames : distinctNames (storesParams loadedRoot).
Proof.
  intros k1 k2 H1 H2. cbn in H1, H2.
  rewrite !lookup_insert_is_Some, lookup_empty in H1.
  rewrite !lookup_insert_is_Some, lookup_empty in H2.
  intros Hname.
  destruct H1 as [<-|[_ [<-|[_ [<-|[_ []%is_Some_None]]]]]];
    destruct H2 as [<-|[_ [<-|[_ [<-|[_ []%is_Some_None]]]]]];
    (reflexivity || discriminate Hname).
Qed.


Lemma successful_load_loads_every_mounted_store_witness :
  LastCommitID reloaded.2 = recordedCommitID (H := tableExternals) committed.2 1
  ∧ (∀ key, is_Some (stores reloaded.2 !! key)
            ↔ is_Some (storesParams committed.2 !! key))
  ∧ (∀ key params, storesParams committed.2 !! key = Some params →
       ∃ typ st, spTyp params = Some typ
                 ∧ stores reloaded.2 !! key = Some st
                 ∧ storeLoadKVStoreVersion (storeDB committed.2 params)
                     match hashMap (recordedInfos (H := tableExternals) committed.2 1)
                           !! keyName key with
                     | Some si => coreCommitID (Core si)
                     | None => zeroCommitID
                     end
                     (zeroStore typ)
                   = (None, st))
  ∧ db reloaded.2 = db committed.2
  ∧ storesParams reloaded.2 = storesParams committed.2
  ∧ keysByName reloaded.2 = keysByName committed.2
  ∧ pruning reloaded.2 = pruning committed.2.
Proof.
  apply (successful_load_loads_every_mounted_store (H := tableExternals)
           (map_to_list (storesParams committed.2)) 1 committed.2 reloaded.2).
  - rewrite committed_params. exact loadedRoot_params_distinctNames.
  - reflexivity.
  - vm_compute. reflexivity.
Defined.

(** After the commit and the load, the sub-stores are back at the versions
    they committed, the transient one at zero, and the last commit id is
    the one returned by the commit. *)
Example reloaded_versions :
  reloaded.1 = None
  ∧ (rVersion <$> stores reloaded.2) !! accKey = Some 1
  ∧ (rVersion <$> stores reloaded.2) !! bankKey = Some 5
  ∧ (rVersion <$> stores reloaded.2) !! tmpKey = Some 0
  ∧ lastCommitID reloaded.2 = committed.1.
Proof. vm_compute. done. Qed.

